(** * UFscraper: a verification development for [web_scraper_ai_studio_code.py]

    The script crawls the marketplace section of a forum, keeps the threads
    whose title carries a sale prefix, reads a price and up to three images
    from each of them, and renders an HTML table.

    Python strings are sequences of Unicode code points; they are modelled
    as lists of code points.  The regular expression of [extract_price] is
    run by a backtracking matcher with the priorities of Python's [re]
    (greedy repetition, ordered alternation), [float] is modelled by its
    grammar and its rounding to binary64, and the crawl loop is a
    transition system over an explicit environment (the answers of the
    web server). *)

From Stdlib Require Import String Ascii DecimalString.
Local Open Scope string_scope.
From Stdlib Require Import List NArith ZArith QArith Bool Arith Lia.
From Stdlib Require DecimalPos DecimalZ Qcanon.
Import ListNotations.
Local Open Scope N_scope.

Set Implicit Arguments.

(** ** Strings *)

Abbreviation char := N (only parsing).
Abbreviation pystr := (list N) (only parsing).

(** An ASCII literal of the source as a list of code points. *)
Definition lit (s : string) : pystr := map N_of_ascii (list_ascii_of_string s).

Definition euro_sign : char := 8364.   (* U+20AC *)
Definition dot : char := 46.
Definition comma : char := 44.
Definition underscore : char := 95.

Definition pystr_eqb (a b : pystr) : bool :=
  if list_eq_dec N.eq_dec a b then true else false.

(** [s.startswith(p)] *)
Fixpoint startswith (s p : pystr) : bool :=
  match p, s with
  | [], _ => true
  | _ :: _, [] => false
  | a :: p', b :: s' => (a =? b) && startswith s' p'
  end.

(** ** Character classes of the runtime

    [\d] in a [str] pattern and [float] both rest on the decimal-digit
    table of the interpreter ([Py_UNICODE_TODECIMAL]): the characters of
    category Nd, which come in runs of ten starting at a zero digit.  The
    zeros below are those of Unicode 14.0. *)

Definition decimal_zeros : list N :=
  [48; 1632; 1776; 1984; 2406; 2534; 2662; 2790; 2918; 3046; 3174; 3302;
   3430; 3558; 3664; 3792; 3872; 4160; 4240; 6112; 6160; 6470; 6608; 6784;
   6800; 6992; 7088; 7232; 7248; 42528; 43216; 43264; 43472; 43504; 43600;
   44016; 65296; 66720; 68912; 69734; 69872; 69942; 70096; 70384; 70736;
   70864; 71248; 71360; 71472; 71904; 72016; 72784; 73040; 73120; 92768;
   92864; 93008; 120782; 120792; 120802; 120812; 120822; 123200; 123632;
   125264; 130032].

Fixpoint decimal_in (zs : list N) (c : char) : option N :=
  match zs with
  | [] => None
  | z :: zs' => if (z <=? c) && (c <? z + 10) then Some (c - z)
                else decimal_in zs' c
  end.

Definition to_decimal (c : char) : option N := decimal_in decimal_zeros c.

(** [\d] *)
Definition is_digit (c : char) : bool :=
  match to_decimal c with Some _ => true | None => false end.

(** [\s] on [str]: the characters for which [str.isspace] holds. *)
Definition is_space (c : char) : bool :=
  ((9 <=? c) && (c <=? 13)) || ((28 <=? c) && (c <=? 32))
  || (c =? 133) || (c =? 160) || (c =? 5760)
  || ((8192 <=? c) && (c <=? 8202))
  || (c =? 8232) || (c =? 8233) || (c =? 8239) || (c =? 8287) || (c =? 12288).

(** Simple lower-casing, as far as the pattern needs it: under
    [re.IGNORECASE] a literal letter of the pattern matches the characters
    with the same lower case; for [e], [u], [r] and [o] these are the two
    ASCII letters, and [€] is uncased. *)
Definition lower (c : char) : char :=
  if (65 <=? c) && (c <=? 90) then c + 32 else c.

(** ** A backtracking matcher

    The fragment of [re] that the pattern uses.  The matcher explores the
    alternatives in the order of [re]: a repetition takes as many
    iterations as it can and gives them back one by one, an alternation
    tries its branches from left to right.  The continuation [k] receives
    the rest of the text and the text captured by group 1. *)

Inductive regex : Type :=
| Chr (p : char -> bool)                      (* one character of a class *)
| Cat (r1 r2 : regex)                         (* r1 r2 *)
| Alt (r1 r2 : regex)                         (* r1|r2 *)
| Rep (lo : nat) (hi : option nat) (r : regex) (* greedy r{lo,hi} *)
| Grp (r : regex).                            (* ( r ), group 1 *)

Definition capture := option pystr.

Definition below (hi : option nat) (n : nat) : bool :=
  match hi with Some h => Nat.ltb n h | None => true end.

Section Matcher.
Variable A : Type.

Definition cont := pystr -> capture -> option A.

(** The loop of a greedy repetition: [n] iterations are done; one more is
    tried first, and the loop is left ([k]) when that fails.  An
    iteration has to consume text. *)
Fixpoint rep_loop (body : pystr -> capture -> cont -> option A)
    (lo : nat) (hi : option nat) (k : cont)
    (fuel n : nat) (s : pystr) (cap : capture) : option A :=
  let leave := if Nat.leb lo n then k s cap else None in
  match fuel with
  | O => leave
  | S fuel' =>
      if below hi n then
        match body s cap (fun s1 c1 =>
                if Nat.ltb (length s1) (length s)
                then rep_loop body lo hi k fuel' (S n) s1 c1
                else None) with
        | Some a => Some a
        | None => leave
        end
      else leave
  end.

Fixpoint bt (r : regex) (s : pystr) (cap : capture) (k : cont) : option A :=
  match r with
  | Chr p =>
      match s with
      | c :: s' => if p c then k s' cap else None
      | [] => None
      end
  | Cat r1 r2 => bt r1 s cap (fun s1 c1 => bt r2 s1 c1 k)
  | Alt r1 r2 =>
      match bt r1 s cap k with
      | Some a => Some a
      | None => bt r2 s cap k
      end
  | Rep lo hi r1 => rep_loop (bt r1) lo hi k (length s) 0 s cap
  | Grp r1 =>
      bt r1 s cap
         (fun s1 _ => k s1 (Some (firstn (length s - length s1) s)))
  end.
End Matcher.

(** [re.match] at the start of [s]: the captured group and the rest of the
    text behind the match. *)
Definition match_at (r : regex) (s : pystr) : option (capture * pystr) :=
  bt r s None (fun rest cap => Some (cap, rest)).

(** [re.findall] for a pattern with one group: the scan goes from left to
    right, a match contributes its group and the scan goes on behind it; a
    position without a match is skipped.  The rule of [re] for empty
    matches is left out: a match of [price_pattern] is never empty
    ([match_at_shorter] below), so that the fuel of [findall] suffices. *)
Fixpoint findall_from (fuel : nat) (r : regex) (s : pystr) : list pystr :=
  match fuel with
  | O => []
  | S fuel' =>
      match match_at r s with
      | Some (cap, rest) =>
          match cap with Some g => g | None => [] end
          :: findall_from fuel' r rest
      | None =>
          match s with
          | [] => []
          | _ :: s' => findall_from fuel' r s'
          end
      end
  end.

Definition findall (r : regex) (s : pystr) : list pystr :=
  findall_from (S (length s)) r s.

(** ** The pattern of [extract_price]

    [(\d{1,3}(?:\.\d{3})*(?:,\d{2})?)\s*(?:€|Euro|EUR)] with
    [re.IGNORECASE]. *)

Definition chr (c : char) : regex := Chr (fun x => lower x =? lower c).

Fixpoint word (w : pystr) (last : char) : regex :=
  match w with
  | [] => chr last
  | c :: w' => Cat (chr c) (word w' last)
  end.

Definition digits (lo hi : nat) : regex := Rep lo (Some hi) (Chr is_digit).
Definition star (r : regex) : regex := Rep 0 None r.
Definition opt (r : regex) : regex := Rep 0 (Some 1%nat) r.

Definition number_part : regex :=
  Cat (digits 1 3)
      (Cat (star (Cat (chr dot) (digits 3 3)))
           (opt (Cat (chr comma) (digits 2 2)))).

Definition currency_part : regex :=
  Alt (chr euro_sign) (Alt (word (lit "Eur") 111) (word (lit "EU") 82)).

Definition price_pattern : regex :=
  Cat (Grp number_part) (Cat (star (Chr is_space)) currency_part).

(** ** [float]

    A [float] is a binary64 number, an infinity or a NaN; a number is
    represented by its value, a rational (the sign of a zero is not kept:
    [-0.0 == 0.0] in the interpreter).  [float(str)] first maps the
    non-ASCII spaces and decimal digits of the string to ASCII, strips the
    white space of C around it, checks and removes the underscores between
    digits, and then reads a decimal numeral, or one of [inf], [infinity]
    and [nan]; anything else is a [ValueError], here [None].  The
    conversion of a numeral is correctly rounded: the result is the
    binary64 number nearest to the number that the numeral denotes, a tie
    going to the even significand, and an infinity when the rounded number
    is beyond the range. *)

Inductive pyfloat : Type :=
| Fin (q : Q)
| Inf (negative : bool)
| Nan.

(** [n / d] rounded to the nearest integer, a tie to the even one, for
    [0 <= n] and [0 < d]. *)
Definition round_half_even (n d : Z) : Z :=
  let q := (n / d)%Z in
  match (2 * (n mod d) ?= d)%Z with
  | Lt => q
  | Gt => (q + 1)%Z
  | Eq => if Z.even q then q else (q + 1)%Z
  end.

(** The fraction [n / d * 2 ^ k]. *)
Definition scaled (n d k : Z) : Z * Z :=
  if (0 <=? k)%Z then (n * 2 ^ k, d)%Z else (n, d * 2 ^ (- k))%Z.

(** The binary exponent of [n / d], for [0 < n] and [0 < d]: the largest
    [e] with [2 ^ e <= n / d]. *)
Definition exponent (n d : Z) : Z :=
  let e := (Z.log2 n - Z.log2 d)%Z in
  let (a, b) := scaled n d (- e) in
  if (b <=? a)%Z then e else (e - 1)%Z.

(** The binary64 number nearest to [n / d], with the sign [negative]: a
    significand of 53 bits, the unit in the last place not below
    [2 ^ -1074], and an infinity from [2 ^ 1024] on. *)
Definition binary64_of (negative : bool) (n d : Z) : pyfloat :=
  let u := Z.max (exponent n d - 52) (-1074) in
  let (a, b) := scaled n d (- u) in
  let m := round_half_even a b in
  if (2 ^ (1024 - u) <=? m)%Z then Inf negative
  else let (x, y) := scaled m 1 u in
       Fin (Qred ((if negative then - x else x)%Z # Z.to_pos y)).

Definition binary64 (q : Q) : pyfloat :=
  let r := Qred q in
  match Qnum r with
  | Z0 => Fin 0
  | Zpos n => binary64_of false (Zpos n) (Zpos (Qden r))
  | Zneg n => binary64_of true (Zpos n) (Zpos (Qden r))
  end.

Fixpoint span (p : char -> bool) (s : pystr) : pystr * pystr :=
  match s with
  | c :: s' => if p c then let (a, b) := span p s' in (c :: a, b) else ([], s)
  | [] => ([], [])
  end.

Fixpoint dropwhile (p : char -> bool) (s : pystr) : pystr :=
  match s with
  | c :: s' => if p c then dropwhile p s' else s
  | [] => []
  end.

Definition ascii_digit (c : char) : bool := (48 <=? c) && (c <=? 57).
Definition c_isspace (c : char) : bool := ((9 <=? c) && (c <=? 13)) || (c =? 32).

Definition to_ascii (c : char) : char :=
  if c <? 127 then c
  else if is_space c then 32
  else match to_decimal c with Some d => 48 + d | None => 63 end.

Definition strip (s : pystr) : pystr :=
  rev (dropwhile c_isspace (rev (dropwhile c_isspace s))).

(** An underscore stands between two digits; [prev] is the character
    before [s]. *)
Fixpoint drop_underscores (prev : char) (s : pystr) : option pystr :=
  match s with
  | [] => if prev =? underscore then None else Some []
  | c :: s' =>
      if c =? underscore then
        if ascii_digit prev then drop_underscores c s' else None
      else if (prev =? underscore) && negb (ascii_digit c) then None
      else option_map (cons c) (drop_underscores c s')
  end.

Definition number (ds : pystr) : N :=
  fold_left (fun acc c => 10 * acc + (c - 48)) ds 0.

Definition sign_of (s : pystr) : bool * pystr :=
  match s with
  | c :: r => if c =? 45 then (true, r) else if c =? 43 then (false, r)
              else (false, s)
  | [] => (false, s)
  end.

Definition signed (neg : bool) (n : N) : Z :=
  if neg then (- Z.of_N n)%Z else Z.of_N n.

(** The exponent, when one is written out in full; otherwise nothing is
    read. *)
Definition parse_exponent (s : pystr) : Z * pystr :=
  match s with
  | c :: r =>
      if lower c =? 101 then
        let (neg, r1) := sign_of r in
        let (ds, r2) := span ascii_digit r1 in
        match ds with
        | [] => (0%Z, s)
        | _ :: _ => (signed neg (number ds), r2)
        end
      else (0%Z, s)
  | [] => (0%Z, s)
  end.

Definition parse_decimal (s : pystr) : option pyfloat :=
  let (neg, r) := sign_of s in
  let (ip, r1) := span ascii_digit r in
  let (fp, r2) := match r1 with
                  | c :: r' => if c =? dot then span ascii_digit r' else ([], r1)
                  | [] => ([], r1)
                  end in
  match ip ++ fp with
  | [] => None
  | m =>
      let (e, r3) := parse_exponent r2 in
      match r3 with
      | [] => Some (binary64 (inject_Z (signed neg (number m))
                              * inject_Z 10 ^ (e - Z.of_nat (length fp))))
      | _ :: _ => None
      end
  end.

Definition parse_special (s : pystr) : option pyfloat :=
  let (neg, r) := sign_of s in
  let w := map lower r in
  if pystr_eqb w (lit "inf") || pystr_eqb w (lit "infinity") then Some (Inf neg)
  else if pystr_eqb w (lit "nan") then Some Nan
  else None.

Definition float (s : pystr) : option pyfloat :=
  match drop_underscores 0 (strip (map to_ascii s)) with
  | None => None
  | Some t =>
      match parse_decimal t with
      | Some x => Some x
      | None => parse_special t
      end
  end.

(** ** [clean_price] and [extract_price] *)

(** [s.replace(old, new)] for a one-character [old]. *)
Definition replace (old : char) (new : pystr) (s : pystr) : pystr :=
  flat_map (fun c => if c =? old then new else [c]) s.

Definition clean_price (price_str : pystr) : option pyfloat :=
  let clean := replace comma [dot] (replace dot [] price_str) in
  float clean.

Definition extract_price (text : pystr) : option pyfloat :=
  let matches := findall price_pattern text in
  match matches with
  | [] => None
  | _ :: _ => clean_price (last matches [])
  end.

(** ** Documents

    A page enters the script through three queries of the parser; a parsed
    document is modelled by what the queries return.  A tag is always true
    in a condition, so that [if not soup] and [if not title_element] test
    for [None] only. *)

(** An [<img class="bbImage">] tag with its [src] and [data-url]. *)
Record img : Type := { src : option pystr; data_url : option pystr }.

(** The body of the first post: [article.message-body .bbWrapper]. *)
Record post : Type := {
  get_text : pystr;        (* get_text(separator=' ') *)
  img_tags : list img      (* find_all('img', class_='bbImage') *)
}.

(** The title link [div.structItem-title a[data-tp-primary]] of an entry. *)
Record anchor : Type := {
  title_text : pystr;      (* get_text(strip=True) *)
  href : option pystr      (* the attribute, when the tag has one *)
}.

(** An entry [div.structItem--thread] of an overview page. *)
Record item : Type := { title_element : option anchor }.

Record soup : Type := {
  thread_items : list item;    (* select('div.structItem--thread') *)
  first_post : option post     (* select_one('article.message-body .bbWrapper') *)
}.

(** ** Exceptions and the page fetcher

    Only exceptions of class [Exception] are modelled; an interrupt of the
    process is outside the model, as are the pause before a request and
    the clock. *)

Inductive exn : Type :=
| ConnectionError
| Timeout
| HTTPError (status : Z)
| ParserRejectedMarkup
| KeyError (key : pystr).

Inductive result (A : Type) : Type :=
| Ok (a : A)
| Raise (e : exn).
Arguments Ok {A} a.
Arguments Raise {A} e.

Definition bind {A B : Type} (m : result A) (f : A -> result B) : result B :=
  match m with Ok a => f a | Raise e => Raise e end.

Notation "x <- m ;; f" := (bind m (fun x => f))
  (at level 61, m at next level, right associativity).

(** What [requests.get] hands back, and what the parser makes of the body. *)
Record response : Type := {
  status_code : Z;
  parsed : result soup      (* BeautifulSoup(response.text, 'html.parser') *)
}.

(** [Response.raise_for_status]: the client and server error classes. *)
Definition raise_for_status (r : response) : result unit :=
  if ((400 <=? status_code r) && (status_code r <? 600))%Z
  then Raise (HTTPError (status_code r))
  else Ok tt.

Inductive diagnostic : Type :=
| Start (max_results : Z)                  (* "Starte Suche nach ..." *)
| ScanPage (page : Z)                      (* "--- Scanne Übersichtsseite ..." *)
| FetchError (url : pystr) (e : exn)       (* "Fehler beim Abrufen von ..." *)
| NoMoreThreads                            (* "Keine weiteren Threads gefunden." *)
| Hit (n : nat) (title : pystr)            (* "Treffer n: title" *)
| NoData                                   (* "Keine Daten zum Speichern vorhanden." *)
| Saved (n : nat).                         (* "Fertig! n Anzeigen ..." *)

(** [get_soup], given the outcome of the request: the messages printed and
    the value returned. *)
Definition get_soup (outcome : result response) (url : pystr)
  : list diagnostic * option soup :=
  match (r <- outcome ;; _ <- raise_for_status r ;; parsed r) with
  | Ok tree => ([], Some tree)
  | Raise e => ([FetchError url e], None)
  end.

(** ** Thread details *)

Definition base_url : pystr := lit "https://uhrforum.de".
Definition start_url : pystr := lit "https://uhrforum.de/forums/angebote.11/".
Definition erlaubte_praefixe : list pystr := [lit "[Verkauf]"; lit "[Verkauf-Tausch]"].

Record details : Type := { price : option pyfloat; images : list pystr }.

Definition truthy (v : option pystr) : bool :=
  match v with Some (_ :: _) => true | _ => false end.

(** [a or b] *)
Definition py_or (a b : option pystr) : option pystr := if truthy a then a else b.

(** The body of the loop over [img_tags[:3]]. *)
Definition add_image (images : list pystr) (i : img) : list pystr :=
  let img_url := py_or (src i) (data_url i) in
  match img_url with
  | Some (c :: u) =>
      let img_url := c :: u in
      let img_url := if negb (startswith img_url (lit "http"))
                     then base_url ++ img_url else img_url in
      images ++ [img_url]
  | _ => images
  end.

Definition scrape_thread_details (outcome : result response) (thread_url : pystr)
  : list diagnostic * details :=
  let (out, soup) := get_soup outcome thread_url in
  match soup with
  | None => (out, {| price := None; images := [] |})
  | Some soup =>
      match first_post soup with
      | Some first_post =>
          (out, {| price := extract_price (get_text first_post);
                   images := fold_left add_image (firstn 3 (img_tags first_post)) [] |})
      | None => (out, {| price := None; images := [] |})
      end
  end.

(** ** The report *)

Record listing : Type := {
  hersteller_modell : pystr;        (* "Hersteller/Modell" *)
  preis : option pyfloat;           (* "Preis (€)" *)
  bilder : list pystr;              (* "Bilder" *)
  link : pystr                      (* "Link" *)
}.

Definition quoted (s : pystr) : pystr := [34] ++ s ++ [34].

Definition thumbnail (url : pystr) : pystr :=
  lit "<img src=" ++ quoted url ++ lit " width=" ++ quoted (lit "120")
  ++ lit " style=" ++ quoted (lit "margin:2px;") ++ lit ">".

Definition format_images (img_list : list pystr) : pystr :=
  match img_list with
  | [] => lit "Keine Bilder"
  | _ :: _ => concat (map thumbnail img_list)
  end.

(** A row of the data frame [df] when it is handed to [to_html]: the
    values of the cells in the order of the columns, the image cell after
    [apply(format_images)].  The texts of the cells are those that the
    script has built, with titles and URLs as the pages gave them
    ([escape=False]). *)
Record row : Type := {
  cell_title : pystr;
  cell_price : option pyfloat;
  cell_images : pystr;
  cell_link : pystr
}.

(** The document written to [angebote.html], represented by what the
    template is filled with: the count in the heading and the data frame
    of the table.  The rest of the template is fixed text; the text that
    [DataFrame.to_html] renders from the frame is the work of the library
    and is not modelled. *)
Record document : Type := { heading_count : nat; table : list row }.

Definition to_row (r : listing) : row :=
  {| cell_title := hersteller_modell r;
     cell_price := preis r;
     cell_images := format_images (bilder r);
     cell_link := link r |}.

(** [save_to_html]: the messages printed and the new content of the file,
    [None] when the file is not opened.  Opening and writing the file are
    taken to succeed. *)
Definition save_to_html (data : list listing) : list diagnostic * option document :=
  match data with
  | [] => ([NoData], None)
  | _ :: _ =>
      ([Saved (length data)],
       Some {| heading_count := length data; table := map to_row data |})
  end.

(** ** The crawl loop

    [run] is a transition system.  The environment [web] gives the outcome
    of the n-th request of the run; the state carries the local variables
    of [run], the log of the requests, the output and the content of
    [angebote.html].  One step runs from one loop head to the next. *)

Inductive control : Type :=
| WhileHead                     (* line 75 *)
| ForHead (rest : list item)    (* line 89, with the entries still to come *)
| Returned                      (* [run] has returned *)
| Raised (e : exn).             (* an exception has left [run] *)

Record state : Type := {
  threads_data : list listing;
  current_page : Z;
  requests : list pystr;          (* the URLs requested so far, oldest first *)
  stdout : list diagnostic;
  angebote_html : option document;
  pc : control
}.

Definition web := nat -> pystr -> result response.

Definition page_url (current_page : Z) : pystr :=
  if (1 <? current_page)%Z
  then start_url ++ lit "page-" ++ lit (NilZero.string_of_int (Z.to_int current_page))
  else start_url.

Definition has_prefix (title : pystr) : bool :=
  existsb (fun prefix => startswith title prefix) erlaubte_praefixe.

Definition link_html (link : pystr) : pystr :=
  lit "<a href=" ++ quoted link ++ lit " target=" ++ quoted (lit "_blank")
  ++ lit ">Link</a>".

Section Run.
Variable env : web.
Variable max_results : Z.

Definition initial (file : option document) : state :=
  {| threads_data := []; current_page := 1; requests := [];
     stdout := [Start max_results]; angebote_html := file; pc := WhileHead |}.

Definition below_max (st : state) : bool :=
  (Z.of_nat (length (threads_data st)) <? max_results)%Z.

(** Line 117: leave the loop, write the report, return. *)
Definition finish (st : state) : state :=
  let (out, file) := save_to_html (threads_data st) in
  {| threads_data := threads_data st; current_page := current_page st;
     requests := requests st; stdout := stdout st ++ out;
     angebote_html := match file with Some d => Some d | None => angebote_html st end;
     pc := Returned |}.

Definition goto (st : state) (c : control) : state :=
  {| threads_data := threads_data st; current_page := current_page st;
     requests := requests st; stdout := stdout st;
     angebote_html := angebote_html st; pc := c |}.

Definition print (st : state) (out : list diagnostic) : state :=
  {| threads_data := threads_data st; current_page := current_page st;
     requests := requests st; stdout := stdout st ++ out;
     angebote_html := angebote_html st; pc := pc st |}.

Definition request (st : state) (url : pystr) : result response * state :=
  (env (length (requests st)) url,
   {| threads_data := threads_data st; current_page := current_page st;
      requests := requests st ++ [url]; stdout := stdout st;
      angebote_html := angebote_html st; pc := pc st |}).

(** Lines 75 to 87. *)
Definition while_head (st : state) : state :=
  if below_max st then
    let url := page_url (current_page st) in
    let st := print st [ScanPage (current_page st)] in
    let (outcome, st) := request st url in
    let (out, soup) := get_soup outcome url in
    let st := print st out in
    match soup with
    | None => finish st
    | Some soup =>
        match thread_items soup with
        | [] => finish (print st [NoMoreThreads])
        | _ :: _ => goto st (ForHead (thread_items soup))
        end
    end
  else finish st.

(** Line 115, behind the loop over the entries. *)
Definition next_page (st : state) : state :=
  {| threads_data := threads_data st; current_page := current_page st + 1;
     requests := requests st; stdout := stdout st;
     angebote_html := angebote_html st; pc := WhileHead |}.

(** Lines 102 to 113, for a title that passed the filter. *)
Definition record_thread (st : state) (a : anchor) (rest : list item) : state :=
  match href a with
  | None => goto st (Raised (KeyError (lit "href")))
  | Some h =>
      let link := base_url ++ h in
      let st := print st [Hit (length (threads_data st) + 1) (title_text a)] in
      let (outcome, st) := request st link in
      let (out, d) := scrape_thread_details outcome link in
      {| threads_data := threads_data st ++
           [{| hersteller_modell := title_text a; preis := price d;
               bilder := images d; link := link_html link |}];
         current_page := current_page st;
         requests := requests st; stdout := stdout st ++ out;
         angebote_html := angebote_html st; pc := ForHead rest |}
  end.

(** Lines 89 to 113: one turn of the loop over the entries. *)
Definition for_head (st : state) (items : list item) : state :=
  match items with
  | [] => next_page st
  | item :: rest =>
      if negb (below_max st) then next_page st
      else match title_element item with
           | None => goto st (ForHead rest)
           | Some a =>
               if negb (has_prefix (title_text a)) then goto st (ForHead rest)
               else record_thread st a rest
           end
  end.

Definition step (st : state) : state :=
  match pc st with
  | WhileHead => while_head st
  | ForHead items => for_head st items
  | Returned | Raised _ => st
  end.

Fixpoint steps (n : nat) (st : state) : state :=
  match n with
  | O => st
  | S n' => steps n' (step st)
  end.
End Run.

(** [run(max_results)] after [n] steps, started when [angebote.html] holds
    [file]. *)
Definition run (env : web) (max_results : Z) (file : option document) (n : nat)
  : state :=
  steps env max_results n (initial max_results file).

(** ** The currency pattern in words

    The reading of the pattern that the description of the price extractor
    gives: one to three digits, groups of a dot and three digits, at most
    one group of a comma and two digits; then white space and a currency
    marker in any case. *)

Definition digit_string (d : pystr) : Prop := Forall (fun c => is_digit c = true) d.

Inductive thousands : pystr -> Prop :=
| thousands_nil : thousands []
| thousands_cons (g t : pystr) :
    length g = 3%nat -> digit_string g -> thousands t ->
    thousands (dot :: g ++ t).

Definition decimals (d : pystr) : Prop :=
  d = [] \/ exists g, d = comma :: g /\ length g = 2%nat /\ digit_string g.

Definition price_number (num : pystr) : Prop :=
  exists d t c, num = d ++ t ++ c
    /\ (1 <= length d <= 3)%nat /\ digit_string d /\ thousands t /\ decimals c.

Definition currency_marker (cur : pystr) : Prop :=
  cur = [euro_sign] \/ map lower cur = lit "euro" \/ map lower cur = lit "eur".

Definition white_space (ws : pystr) : Prop := Forall (fun c => is_space c = true) ws.

(** [m] matches the pattern and [num] is its number. *)
Definition price_match (m num : pystr) : Prop :=
  exists ws cur, m = num ++ ws ++ cur
    /\ price_number num /\ white_space ws /\ currency_marker cur.

(** [m] is a substring of [text], between [pre] and [post], that matches. *)
Definition occurs (text pre m post num : pystr) : Prop :=
  text = pre ++ m ++ post /\ price_match m num.

Definition has_match (text : pystr) : Prop :=
  exists pre m post num, occurs text pre m post num.

(** The last matching substring: none ends behind it, and none that ends
    with it is longer. *)
Definition last_match (text pre m post num : pystr) : Prop :=
  occurs text pre m post num
  /\ forall a m' b num', occurs text a m' b num' ->
       (length post <= length b)%nat
       /\ (length b = length post -> length m' <= length m)%nat.

(** The value of a number of the pattern: the dots dropped, the comma read
    as the decimal point. *)
Definition digits_value (ds : pystr) : N :=
  fold_left (fun acc c => 10 * acc + match to_decimal c with Some d => d | None => 0 end)
            ds 0.

Definition decimal_value (num : pystr) : Q :=
  let plain := filter (fun c => negb (c =? dot)) num in
  let (ip, fp) := span (fun c => negb (c =? comma)) plain in
  inject_Z (Z.of_N (digits_value ip))
  + inject_Z (Z.of_N (digits_value (tl fp))) / inject_Z (10 ^ Z.of_nat (length (tl fp))).

(** ** The language of a pattern

    What a pattern matches, without the order of the search; an iteration
    of a repetition is not empty, as in the matcher. *)

Definition within (hi : option nat) (n : nat) : Prop :=
  match hi with Some h => (n <= h)%nat | None => True end.

Fixpoint lang (r : regex) : pystr -> Prop :=
  match r with
  | Chr p => fun m => exists c, m = [c] /\ p c = true
  | Cat r1 r2 => fun m => exists m1 m2, m = m1 ++ m2 /\ lang r1 m1 /\ lang r2 m2
  | Alt r1 r2 => fun m => lang r1 m \/ lang r2 m
  | Rep lo hi r1 => fun m =>
      exists ms, m = concat ms /\ Forall (fun x => lang r1 x /\ x <> []) ms
                 /\ (lo <= length ms)%nat /\ within hi (length ms)
  | Grp r1 => lang r1
  end.

Fixpoint group_free (r : regex) : bool :=
  match r with
  | Chr _ => true
  | Cat r1 r2 | Alt r1 r2 => group_free r1 && group_free r2
  | Rep _ _ r1 => group_free r1
  | Grp _ => false
  end.

(** [re.fullmatch], used to decide [lang]. *)
Definition fullmatch (r : regex) (s : pystr) : bool :=
  match bt r s None (fun rest _ => match rest with [] => Some tt | _ => None end) with
  | Some _ => true
  | None => false
  end.

(** What the proofs about the matcher show of a pattern: a result comes
    from a match of the language, and a match of the language gives a
    result. *)
Definition sound_for (A : Type) (r : regex) : Prop :=
  forall s cap (k : cont A) a, bt r s cap k = Some a ->
    exists m s' cap', s = m ++ s' /\ lang r m /\ k s' cap' = Some a
                      /\ (group_free r = true -> cap' = cap).

Definition complete_for (A : Type) (r : regex) : Prop :=
  forall s m s' cap (k : cont A), s = m ++ s' -> lang r m ->
    (forall cap', k s' cap' <> None) -> bt r s cap k <> None.

(** A pattern calls its continuation on what is left of the text only. *)
Definition local_for (A : Type) (r : regex) : Prop :=
  forall s cap (k k' : cont A),
    (forall s1 c1, (length s1 <= length s)%nat -> k s1 c1 = k' s1 c1) ->
    bt (A:=A) r s cap k = bt r s cap k'.

(** ** Character classes of the proofs *)

(** The characters of a number, and those of a currency marker. *)
Definition numchar (c : char) : bool := is_digit c || (c =? dot) || (c =? comma).

Definition marker_char (c : char) : bool :=
  (c =? euro_sign) || (lower c =? 101) || (lower c =? 117)
  || (lower c =? 114) || (lower c =? 111).

(** [x] does not go on with a character of the class [p]. *)
Definition stops (p : char -> bool) (x : pystr) : Prop :=
  match x with [] => True | c :: _ => p c = false end.

(** The marker of a match takes the [o] of [Euro] when it is there. *)
Definition marker_maximal (cur rest : pystr) : Prop :=
  map lower cur = lit "eur" ->
  match rest with c :: _ => lower c <> 111 | [] => True end.

(** ** Images, in words *)

(** The attribute value that the loop takes from a tag, if any. *)
Definition usable_url (i : img) : option pystr :=
  match py_or (src i) (data_url i) with
  | Some (c :: u) => Some (c :: u)
  | _ => None
  end.

Definition raw_urls (tags : list img) : list pystr :=
  flat_map (fun i => match usable_url i with Some u => [u] | None => [] end) tags.

(** A relative URL gets the base URL in front, an absolute one stays. *)
Definition absolute (raw : pystr) : pystr :=
  if startswith raw (lit "http") then raw else base_url ++ raw.

Definition images_of (p : post) : list pystr :=
  fold_left add_image (firstn 3 (img_tags p)) [].

(** ** The image cell, in words *)






(** ** Pages and servers of the examples *)

(** The text of the example of the price extractor. *)
Definition two_prices : pystr :=
  lit "Preis: 1.200,50 " ++ [euro_sign] ++ lit " oder 1.300,00 EUR".




(** A text with a price of 10 ^ 309: a 1 and 103 groups of three zeros. *)
Definition beyond_range : pystr :=
  lit "1" ++ concat (repeat (lit ".000") 103) ++ lit " EUR".

(** A page with a first post, fetched without an error. *)
Definition thread_page (p : post) : result response :=
  Ok {| status_code := 200;
        parsed := Ok {| thread_items := []; first_post := Some p |} |}.

(** A post with four image tags, the first without [src] and [data-url]. *)
Definition four_tags : post :=
  {| get_text := [];
     img_tags := [ {| src := None; data_url := None |};
                   {| src := Some (lit "/a.jpg"); data_url := None |};
                   {| src := None; data_url := Some (lit "https://x/b.jpg") |};
                   {| src := Some (lit "/c.jpg"); data_url := None |} ] |}.

Definition empty_page : soup := {| thread_items := []; first_post := None |}.

(** A response that [requests] does not follow and that is no error for
    [raise_for_status]. *)
Definition not_modified : response := {| status_code := 304; parsed := Ok empty_page |}.

(** A 2xx status. *)
Definition success (r : response) : bool :=
  ((200 <=? status_code r) && (status_code r <? 300))%Z.

(** An overview page with two sale threads, and a server that answers
    every request with it. *)
Definition sale (title h : string) : item :=
  {| title_element := Some {| title_text := lit title; href := Some (lit h) |} |}.

Definition two_sales : soup :=
  {| thread_items := [sale "[Verkauf] Rolex" "/threads/1/";
                      sale "[Verkauf-Tausch] Omega" "/threads/2/"];
     first_post := None |}.

Definition serve (page : soup) : web :=
  fun _ _ => Ok {| status_code := 200; parsed := Ok page |}.

Definition unreachable : web := fun _ _ => Raise ConnectionError.

Definition at_first_entry : state := step (serve two_sales) 100 (initial 100 None).

(** An overview page whose sale thread has a title link without [href]. *)
Definition sale_without_href : soup :=
  {| thread_items :=
       [{| title_element :=
             Some {| title_text := lit "[Verkauf] Rolex"; href := None |} |}];
     first_post := None |}.

(** ** Runs *)

Definition stopped (c : control) : Prop := c = Returned \/ exists e, c = Raised e.

Definition count (st : state) : Z := Z.of_nat (length (threads_data st)).

(** ** The steps of [run], case by case

    A second reading of [step], as a relation with one rule for each way
    through the two loops; [step_transition] shows that [step] follows it. *)

(** An entry that the loop passes over: no title link, or a title without
    a sale prefix. *)
Definition skipped (i : item) : Prop :=
  match title_element i with
  | None => True
  | Some a => has_prefix (title_text a) = false
  end.

(** The state behind the fetch of the overview page: the page is announced,
    the request is logged, and [get_soup] has printed [out]. *)
Definition fetched (env : web) (st : state) (out : list diagnostic) : state :=
  print (snd (request env (print st [ScanPage (current_page st)])
                      (page_url (current_page st)))) out.

Inductive transition (env : web) (max_results : Z) (st : state) : state -> Prop :=
| t_stay :
    stopped (pc st) -> transition env max_results st st
| t_exit :
    pc st = WhileHead -> below_max max_results st = false ->
    transition env max_results st (finish st)
| t_fetch_failed (out : list diagnostic) :
    pc st = WhileHead -> below_max max_results st = true ->
    get_soup (env (length (requests st)) (page_url (current_page st)))
             (page_url (current_page st)) = (out, None) ->
    transition env max_results st (finish (fetched env st out))
| t_no_threads (out : list diagnostic) (tree : soup) :
    pc st = WhileHead -> below_max max_results st = true ->
    get_soup (env (length (requests st)) (page_url (current_page st)))
             (page_url (current_page st)) = (out, Some tree) ->
    thread_items tree = [] ->
    transition env max_results st (finish (print (fetched env st out) [NoMoreThreads]))
| t_enter (out : list diagnostic) (tree : soup) :
    pc st = WhileHead -> below_max max_results st = true ->
    get_soup (env (length (requests st)) (page_url (current_page st)))
             (page_url (current_page st)) = (out, Some tree) ->
    thread_items tree <> [] ->
    transition env max_results st
               (goto (fetched env st out) (ForHead (thread_items tree)))
| t_page_done :
    pc st = ForHead [] -> transition env max_results st (next_page st)
| t_break (i : item) (rest : list item) :
    pc st = ForHead (i :: rest) -> below_max max_results st = false ->
    transition env max_results st (next_page st)
| t_skip (i : item) (rest : list item) :
    pc st = ForHead (i :: rest) -> below_max max_results st = true ->
    skipped i ->
    transition env max_results st (goto st (ForHead rest))
| t_raise (i : item) (rest : list item) (a : anchor) :
    pc st = ForHead (i :: rest) -> below_max max_results st = true ->
    title_element i = Some a -> has_prefix (title_text a) = true ->
    href a = None ->
    transition env max_results st (goto st (Raised (KeyError (lit "href"))))
| t_record (i : item) (rest : list item) (a : anchor) (h : pystr) :
    pc st = ForHead (i :: rest) -> below_max max_results st = true ->
    title_element i = Some a -> has_prefix (title_text a) = true ->
    href a = Some h ->
    transition env max_results st (record_thread env st a rest).

(** The record of a thread, and the state behind it. *)
Definition listing_of (env : web) (st : state) (a : anchor) (h : pystr) : listing :=
  let d := snd (scrape_thread_details (env (length (requests st)) (base_url ++ h))
                                      (base_url ++ h)) in
  {| hersteller_modell := title_text a; preis := price d; bilder := images d;
     link := link_html (base_url ++ h) |}.

Definition recorded (env : web) (st : state) (a : anchor) (h : pystr)
    (rest : list item) : state :=
  {| threads_data := threads_data st ++ [listing_of env st a h];
     current_page := current_page st;
     requests := requests st ++ [base_url ++ h];
     stdout := (stdout st ++ [Hit (length (threads_data st) + 1) (title_text a)])
               ++ fst (scrape_thread_details
                         (env (length (requests st)) (base_url ++ h))
                         (base_url ++ h));
     angebote_html := angebote_html st;
     pc := ForHead rest |}.

(** ** Properties of the records and of the logs *)





(** The requests of a state are in balance with its records and its page:
    one request for each overview page and one for each record. *)
Definition in_balance (st : state) : Prop :=
  (1 <= current_page st)%Z
  /\ match pc st with
     | WhileHead =>
         Z.of_nat (length (requests st))
         = (Z.of_nat (length (threads_data st)) + current_page st - 1)%Z
     | ForHead _ =>
         Z.of_nat (length (requests st))
         = (Z.of_nat (length (threads_data st)) + current_page st)%Z
     | Returned | Raised _ =>
         (Z.of_nat (length (threads_data st)) + current_page st - 1
          <= Z.of_nat (length (requests st))
          <= Z.of_nat (length (threads_data st)) + current_page st)%Z
     end.

Definition on_forum (url : pystr) : Prop := startswith url base_url = true.

(** The hits among the messages, and the hits that a list of records
    stands for: numbered from 1, with the titles in order. *)
Definition hits (out : list diagnostic) : list (nat * pystr) :=
  flat_map (fun d => match d with Hit n t => [(n, t)] | _ => [] end) out.

Definition numbered (data : list listing) : list (nat * pystr) :=
  combine (seq 1 (length data)) (map hersteller_modell data).



(** ** How a run ends *)

Definition running (c : control) : Prop :=
  match c with WhileHead | ForHead _ => True | _ => False end.

(** The overview page [p] cannot be had, or has no entries, whenever it is
    asked for. *)
Definition dead_page (env : web) (p : Z) : Prop :=
  forall k,
    match snd (get_soup (env k (page_url p)) (page_url p)) with
    | None => True
    | Some tree => thread_items tree = []
    end.

(** The server answers every request with a page that has entries, none of
    which the loop keeps. *)
Definition barren (env : web) : Prop :=
  forall k url,
    exists out tree,
      get_soup (env k url) url = (out, Some tree)
      /\ thread_items tree <> [] /\ Forall skipped (thread_items tree).

(** A state of a run that is in one of its loops, has no record, and has
    only entries before it that the loop passes over. *)
Definition idle (st : state) : Prop :=
  threads_data st = []
  /\ match pc st with
     | WhileHead => True
     | ForHead items => Forall skipped items
     | Returned | Raised _ => False
     end.

(** An overview page with one thread that is no sale. *)
Definition one_request : soup :=
  {| thread_items :=
       [{| title_element :=
             Some {| title_text := lit "[Suche] Rolex";
                     href := Some (lit "/threads/3/") |} |}];
     first_post := None |}.

(** A server that has one page of two sale threads and nothing behind it. *)
Definition one_page : web :=
  fun _ url => if pystr_eqb url start_url
               then Ok {| status_code := 200; parsed := Ok two_sales |}
               else Ok {| status_code := 404; parsed := Ok empty_page |}.

(** * Proofs *)

(** ** The matcher and the language *)

Section MatcherFacts.
Variable A : Type.
Implicit Types (k : cont A) (s m : pystr) (cap : capture).

Lemma rep_loop_sound (r : regex) (lo : nat) (hi : option nat) k :
  sound_for A r ->
  forall fuel n s cap a,
    within hi n ->
    rep_loop (bt (A:=A) r) lo hi k fuel n s cap = Some a ->
    exists ms s' cap', s = concat ms ++ s'
      /\ Forall (fun x => lang r x /\ x <> []) ms
      /\ (lo <= n + length ms)%nat /\ within hi (n + length ms)
      /\ k s' cap' = Some a
      /\ (group_free r = true -> cap' = cap).
Proof.
  intros Hr. induction fuel as [|fuel IH]; intros n s cap a Hn H.
  all: assert (Hleave : (if Nat.leb lo n then k s cap else None) = Some a ->
    exists ms s' cap', s = concat ms ++ s'
      /\ Forall (fun x => lang r x /\ x <> []) ms
      /\ (lo <= n + length ms)%nat /\ within hi (n + length ms)
      /\ k s' cap' = Some a /\ (group_free r = true -> cap' = cap)).
  1,3: intros E; destruct (Nat.leb lo n) eqn:L; [|discriminate];
    apply Nat.leb_le in L; exists [], s, cap; simpl;
    rewrite Nat.add_0_r; repeat split; auto.
  - simpl in H. auto.
  - simpl in H. destruct (below hi n) eqn:B; [|auto].
    match type of H with match ?X with _ => _ end = _ => destruct X as [a'|] eqn:E end;
      [|auto].
    inversion H; subst a'. clear H.
    apply Hr in E. destruct E as (m & s1 & c1 & -> & Lm & K & G).
    destruct (Nat.ltb (length s1) (length (m ++ s1))) eqn:Lt; [|discriminate].
    apply Nat.ltb_lt in Lt. rewrite length_app in Lt.
    assert (Hn' : within hi (S n)).
    { destruct hi; simpl in *; auto. apply Nat.ltb_lt in B. lia. }
    destruct (IH _ _ _ _ Hn' K) as (ms & s' & cap' & -> & F & Lo & Hi & K' & G').
    exists (m :: ms), s', cap'. simpl. rewrite <- app_assoc.
    replace (n + S (length ms))%nat with (S n + length ms)%nat by lia.
    repeat split; auto.
    + constructor; auto. split; auto. intros ->. simpl in Lt. lia.
    + intros Gf. rewrite G', G; auto.
Qed.

Lemma bt_sound (r : regex) : sound_for A r.
Proof.
  induction r as [p|r1 IH1 r2 IH2|r1 IH1 r2 IH2|lo hi r1 IH1|r1 IH1];
    intros s cap k a H; simpl in H.
  - destruct s as [|c s]; [discriminate|].
    destruct (p c) eqn:P; [|discriminate].
    exists [c], s, cap. simpl. eauto 10.
  - apply IH1 in H. destruct H as (m1 & s1 & c1 & -> & L1 & H & G1).
    apply IH2 in H. destruct H as (m2 & s2 & c2 & -> & L2 & H & G2).
    exists (m1 ++ m2), s2, c2. rewrite <- app_assoc.
    split; [reflexivity|]. split; [exists m1, m2; auto|]. split; [exact H|].
    simpl. intros G. apply andb_true_iff in G. destruct G.
    rewrite G2, G1; auto.
  - destruct (bt r1 s cap k) as [a'|] eqn:E.
    + inversion H; subst a'. apply IH1 in E.
      destruct E as (m & s' & c' & -> & L & K & G).
      exists m, s', c'. simpl. repeat split; auto.
      intros Gf. apply andb_true_iff in Gf. apply G, Gf.
    + apply IH2 in H. destruct H as (m & s' & c' & -> & L & K & G).
      exists m, s', c'. simpl. repeat split; auto.
      intros Gf. apply andb_true_iff in Gf. apply G, Gf.
  - apply rep_loop_sound in H; auto.
    + destruct H as (ms & s' & cap' & -> & F & Lo & Hi & K & G).
      exists (concat ms), s', cap'. simpl. repeat split; auto.
      exists ms. auto.
    + destruct hi; simpl; auto. lia.
  - apply IH1 in H. destruct H as (m & s' & c' & -> & L & K & _).
    exists m, s'. eexists. simpl.
    split; [reflexivity|]. split; [exact L|]. split; [|discriminate].
    rewrite length_app, Nat.add_sub, firstn_app, firstn_all, Nat.sub_diag in K.
    exact K.
Qed.

Lemma rep_loop_complete (r : regex) (lo : nat) (hi : option nat) k s' :
  complete_for A r ->
  (forall cap', k s' cap' <> None) ->
  forall ms fuel n cap,
    (length ms <= fuel)%nat ->
    Forall (fun x => lang r x /\ x <> []) ms ->
    (lo <= n + length ms)%nat -> within hi (n + length ms) ->
    rep_loop (bt (A:=A) r) lo hi k fuel n (concat ms ++ s') cap <> None.
Proof.
  intros Hr Hk. induction ms as [|m ms IH]; intros fuel n cap Hf F Lo Hi.
  - simpl in *. rewrite Nat.add_0_r in Lo. apply Nat.leb_le in Lo.
    destruct fuel; simpl; rewrite Lo; auto.
    destruct (below hi n); auto.
    match goal with |- match ?X with _ => _ end <> _ => destruct X end; auto.
    discriminate.
  - simpl in Hf. destruct fuel as [|fuel]; [lia|].
    inversion F as [|? ? [Lm Ne] F']; subst.
    simpl. rewrite <- app_assoc.
    assert (B : below hi n = true).
    { destruct hi; simpl in *; auto. apply Nat.ltb_lt. lia. }
    rewrite B.
    match goal with |- match ?X with _ => _ end <> _ => destruct X eqn:E end;
      [discriminate|].
    exfalso. revert E. apply (Hr _ m (concat ms ++ s')); auto.
    intros cap'.
    assert (Lt : Nat.ltb (length (concat ms ++ s'))
                         (length (m ++ concat ms ++ s')) = true).
    { apply Nat.ltb_lt. rewrite (length_app m).
      destruct m; [congruence|simpl; lia]. }
    rewrite Lt. apply IH.
    + lia.
    + exact F'.
    + simpl in Lo. lia.
    + destruct hi; simpl in *; auto. lia.
Qed.

Lemma concat_length_ge (ms : list pystr) :
  Forall (fun x => x <> []) ms -> (length ms <= length (concat ms))%nat.
Proof.
  induction 1 as [|m ms Ne _ IH]; simpl; auto.
  rewrite length_app. destruct m; [congruence|simpl; lia].
Qed.

Lemma bt_complete (r : regex) : complete_for A r.
Proof.
  induction r as [p|r1 IH1 r2 IH2|r1 IH1 r2 IH2|lo hi r1 IH1|r1 IH1];
    intros s m s' cap k -> L Hk; simpl in L |- *.
  - destruct L as (c & -> & P). simpl. rewrite P. auto.
  - destruct L as (m1 & m2 & -> & L1 & L2). rewrite <- app_assoc.
    apply (IH1 _ m1 (m2 ++ s')); auto.
    intros cap'. apply (IH2 _ m2 s'); auto.
  - destruct L as [L|L].
    + pose proof (IH1 _ _ _ cap k eq_refl L Hk).
      destruct (bt r1 (m ++ s') cap k); [discriminate|congruence].
    + destruct (bt r1 (m ++ s') cap k); [discriminate|].
      apply (IH2 _ m s'); auto.
  - destruct L as (ms & -> & F & Lo & Hi).
    apply rep_loop_complete; auto.
    rewrite length_app.
    assert (length ms <= length (concat ms))%nat; [|lia].
    apply concat_length_ge. eapply Forall_impl; [|exact F]. simpl. tauto.
  - apply (IH1 _ m s'); auto.
Qed.
(** The fuel of a repetition is enough: a continuation is only called on
    what is left of the text, and an iteration consumes a character, so
    that no more than [length s] iterations can follow one another. *)
Lemma bt_fails (r : regex) s cap : bt (A:=A) r s cap (fun _ _ => None) = None.
Proof.
  destruct (bt r s cap (fun _ _ => None)) as [a|] eqn:E; auto.
  apply bt_sound in E. destruct E as (_ & _ & _ & _ & _ & E & _). discriminate.
Qed.

Lemma rep_loop_local (r : regex) (lo : nat) (hi : option nat) :
  local_for A r ->
  forall fuel n s cap k k',
    (forall s1 c1, (length s1 <= length s)%nat -> k s1 c1 = k' s1 c1) ->
    rep_loop (bt (A:=A) r) lo hi k fuel n s cap
    = rep_loop (bt r) lo hi k' fuel n s cap.
Proof.
  intros Hr. induction fuel as [|fuel IH]; intros n s cap k k' H; simpl.
  - rewrite (H s cap); auto.
  - rewrite (H s cap); auto.
    destruct (below hi n); auto.
    erewrite Hr; [reflexivity|].
    intros s1 c1 L1. simpl.
    destruct (Nat.ltb (length s1) (length s)) eqn:Lt; auto.
    apply IH. intros s2 c2 L2. apply H. lia.
Qed.

Lemma bt_local (r : regex) : local_for A r.
Proof.
  induction r as [p|r1 IH1 r2 IH2|r1 IH1 r2 IH2|lo hi r1 IH1|r1 IH1];
    intros s cap k k' H; simpl.
  - destruct s as [|c s]; auto. destruct (p c); auto. apply H. simpl. lia.
  - apply IH1. intros s1 c1 L1. apply IH2. intros s2 c2 L2. apply H. lia.
  - rewrite (IH1 s cap k k'), (IH2 s cap k k'); auto.
  - apply rep_loop_local; auto.
  - apply IH1. intros s1 c1 L1. apply H. exact L1.
Qed.

Lemma rep_loop_fuel (r : regex) (lo : nat) (hi : option nat) k :
  forall fuel fuel' n s cap,
    (length s <= fuel)%nat -> (length s <= fuel')%nat ->
    rep_loop (bt (A:=A) r) lo hi k fuel n s cap
    = rep_loop (bt r) lo hi k fuel' n s cap.
Proof.
  assert (Out : forall fuel n s cap, length s = 0%nat ->
            rep_loop (bt (A:=A) r) lo hi k fuel n s cap
            = if Nat.leb lo n then k s cap else None).
  { intros [|fuel] n s cap L; simpl; auto.
    destruct (below hi n); auto.
    erewrite bt_local; [rewrite bt_fails; reflexivity|].
    intros s1 c1 _. simpl. rewrite L. reflexivity. }
  induction fuel as [|fuel IH]; intros fuel' n s cap L L'.
  - rewrite !Out; auto; lia.
  - destruct fuel' as [|fuel']; [rewrite !Out; auto; lia|].
    simpl. destruct (below hi n); auto.
    erewrite bt_local; [reflexivity|].
    intros s1 c1 L1. simpl.
    destruct (Nat.ltb (length s1) (length s)) eqn:Lt; auto.
    apply Nat.ltb_lt in Lt. apply IH; lia.
Qed.
End MatcherFacts.

(** [fullmatch] decides the language of a pattern. *)
Lemma fullmatch_lang (r : regex) (s : pystr) : fullmatch r s = true <-> lang r s.
Proof.
  unfold fullmatch. split.
  - destruct (bt r s None _) as [[]|] eqn:E; [intros _|discriminate].
    apply bt_sound in E. destruct E as (m & s' & cap' & -> & L & K & _).
    destruct s'; [|discriminate]. rewrite app_nil_r. exact L.
  - intros L.
    pose proof (@bt_complete unit r s s [] None
                  (fun rest _ => match rest with [] => Some tt | _ => None end)
                  (eq_sym (app_nil_r s)) L) as C.
    destruct (bt r s None _); [reflexivity|].
    exfalso. apply C; [discriminate|reflexivity].
Qed.

(** ** The pattern and its reading in words *)

Lemma lower_fixed (x c : char) :
  (c < 65 \/ 122 < c) -> lower x = c -> x = c.
Proof.
  unfold lower. intros Hc.
  destruct ((65 <=? x) && (x <=? 90)) eqn:E; auto.
  apply andb_true_iff in E. destruct E as [E1 E2].
  apply N.leb_le in E1, E2. lia.
Qed.

Lemma chr_spec (c x : char) :
  (c < 65 \/ 122 < c) -> (lower x =? lower c) = true <-> x = c.
Proof.
  intros Hc. rewrite N.eqb_eq.
  assert (lower c = c) as ->.
  { unfold lower. destruct ((65 <=? c) && (c <=? 90)) eqn:E; auto.
    apply andb_true_iff in E. destruct E as [E1 E2].
    apply N.leb_le in E1, E2. lia. }
  split; [apply lower_fixed; auto|intros ->].
  unfold lower. destruct ((65 <=? c) && (c <=? 90)) eqn:E; auto.
  apply andb_true_iff in E. destruct E as [E1 E2]. apply N.leb_le in E1, E2. lia.
Qed.

Lemma lang_chr (c : char) (m : pystr) :
  (c < 65 \/ 122 < c) -> lang (chr c) m <-> m = [c].
Proof.
  intros Hc. unfold chr. simpl. split.
  - intros (x & -> & E). apply chr_spec in E; auto. congruence.
  - intros ->. exists c. split; auto. apply chr_spec; auto.
Qed.

Lemma lang_rep_chr (p : char -> bool) (lo : nat) (hi : option nat) (m : pystr) :
  lang (Rep lo hi (Chr p)) m <->
  Forall (fun c => p c = true) m /\ (lo <= length m)%nat /\ within hi (length m).
Proof.
  simpl. split.
  - intros (ms & -> & F & Lo & Hi).
    assert (E : length (concat ms) = length ms
                /\ Forall (fun c => p c = true) (concat ms)).
    { clear Lo Hi. induction F as [|x ms [(c & -> & P) _] _ [IH1 IH2]]; simpl; auto. }
    destruct E as [-> E]. auto.
  - intros (F & Lo & Hi). exists (map (fun c => [c]) m).
    rewrite length_map. repeat split; auto.
    + clear. induction m; simpl; congruence.
    + clear Lo Hi. induction F; simpl; constructor; auto.
      split; [eauto|discriminate].
Qed.

Lemma lang_digits (lo hi : nat) (m : pystr) :
  lang (digits lo hi) m <-> digit_string m /\ (lo <= length m <= hi)%nat.
Proof. unfold digits. rewrite lang_rep_chr. simpl. unfold digit_string. tauto. Qed.

Lemma lang_spaces (m : pystr) : lang (star (Chr is_space)) m <-> white_space m.
Proof.
  unfold star. rewrite lang_rep_chr. simpl. unfold white_space.
  intuition lia.
Qed.

Lemma lang_thousands (t : pystr) :
  lang (star (Cat (chr dot) (digits 3 3))) t <-> thousands t.
Proof.
  unfold star. split.
  - intros (ms & -> & F & _). induction F as [|x ms [L _] _ IH]; simpl.
    + constructor.
    + destruct L as (m1 & m2 & -> & L1 & L2).
      apply lang_chr in L1; [|unfold dot; lia]. subst m1.
      apply lang_digits in L2. destruct L2 as [D Len].
      simpl. constructor; auto. lia.
  - induction 1 as [|g t Len D _ (ms & -> & F & _)].
    + exists []. simpl. repeat split; auto.
    + exists ((dot :: g) :: ms). simpl. repeat split; auto; try lia.
      constructor; auto. split; [|discriminate].
      exists [dot], g. repeat split; auto.
      * apply lang_chr; [unfold dot; lia|reflexivity].
      * apply lang_digits. split; auto. lia.
Qed.

Lemma lang_decimals (c : pystr) :
  lang (opt (Cat (chr comma) (digits 2 2))) c <-> decimals c.
Proof.
  unfold opt, decimals. split.
  - intros (ms & -> & F & _ & Hi). simpl in Hi.
    destruct F as [|x ms [L _] F]; [left; reflexivity|].
    destruct ms; [|simpl in Hi; lia]. right.
    destruct L as (m1 & m2 & -> & L1 & L2).
    apply lang_chr in L1; [|unfold comma; lia]. subst m1.
    apply lang_digits in L2. destruct L2 as [D Len].
    exists m2. simpl. rewrite app_nil_r. repeat split; auto. lia.
  - intros [->|(g & -> & Len & D)].
    + exists []. simpl. repeat split; auto.
    + exists [comma :: g]. simpl. rewrite app_nil_r. repeat split; auto.
      constructor; auto. split; [|discriminate].
      exists [comma], g. repeat split; auto.
      * apply lang_chr; [unfold comma; lia|reflexivity].
      * apply lang_digits. split; auto. lia.
Qed.

Lemma lang_number_part (num : pystr) : lang number_part num <-> price_number num.
Proof.
  unfold number_part, price_number. simpl lang at 1. split.
  - intros (d & r & -> & Ld & (t & c & -> & Lt & Lc)).
    apply lang_digits in Ld. apply lang_thousands in Lt. apply lang_decimals in Lc.
    exists d, t, c. tauto.
  - intros (d & t & c & -> & Len & D & T & C).
    exists d, (t ++ c). repeat split; auto.
    + apply lang_digits. auto.
    + exists t, c. repeat split; auto.
      * apply lang_thousands; auto.
      * apply lang_decimals; auto.
Qed.

Lemma lang_currency_part (cur : pystr) :
  lang currency_part cur <-> currency_marker cur.
Proof.
  unfold currency_part, currency_marker. simpl. split.
  - intros [(c & -> & E)|[H|H]].
    + left. apply chr_spec in E; [|unfold euro_sign; lia]. congruence.
    + right. left.
      destruct H as (? & ? & -> & (c1 & -> & E1) & ? & ? & -> & (c2 & -> & E2)
                     & ? & ? & -> & (c3 & -> & E3) & (c4 & -> & E4)).
      apply N.eqb_eq in E1, E2, E3, E4. simpl. rewrite E1, E2, E3, E4. reflexivity.
    + right. right.
      destruct H as (? & ? & -> & (c1 & -> & E1) & ? & ? & -> & (c2 & -> & E2)
                     & (c3 & -> & E3)).
      apply N.eqb_eq in E1, E2, E3. simpl. rewrite E1, E2, E3. reflexivity.
  - intros [->|[H|H]].
    + left. exists euro_sign. auto.
    + right. left.
      destruct cur as [|c1 [|c2 [|c3 [|c4 [|]]]]]; try discriminate.
      inversion H as [[E1 E2 E3 E4]].
      exists [c1], [c2; c3; c4]. repeat split; [exists c1; rewrite E1; auto|].
      exists [c2], [c3; c4]. repeat split; [exists c2; rewrite E2; auto|].
      exists [c3], [c4]. repeat split; [exists c3; rewrite E3; auto|].
      exists c4; rewrite E4; auto.
    + right. right.
      destruct cur as [|c1 [|c2 [|c3 [|]]]]; try discriminate.
      inversion H as [[E1 E2 E3]].
      exists [c1], [c2; c3]. repeat split; [exists c1; rewrite E1; auto|].
      exists [c2], [c3]. repeat split; [exists c2; rewrite E2; auto|].
      exists c3; rewrite E3; auto.
Qed.

Lemma lang_price_pattern (m : pystr) :
  lang price_pattern m <-> exists num, price_match m num.
Proof.
  unfold price_pattern, price_match. simpl lang at 1. split.
  - intros (num & r & -> & Ln & (ws & cur & -> & Lw & Lc)).
    apply lang_number_part in Ln. apply lang_spaces in Lw.
    apply lang_currency_part in Lc. exists num, ws, cur. tauto.
  - intros (num & ws & cur & -> & Pn & W & C).
    exists num, (ws ++ cur). repeat split; auto.
    + apply lang_number_part; auto.
    + exists ws, cur. repeat split; auto.
      * apply lang_spaces; auto.
      * apply lang_currency_part; auto.
Qed.

(** ** Character classes *)

Lemma decimal_in_range (zs : list N) (c : char) (d : N) :
  decimal_in zs c = Some d -> Exists (fun z => z <= c < z + 10 /\ d = c - z) zs.
Proof.
  induction zs as [|z zs IH]; simpl; [discriminate|].
  destruct ((z <=? c) && (c <? z + 10)) eqn:E.
  - intros [= <-]. apply andb_true_iff in E. destruct E as [E1 E2].
    apply N.leb_le in E1. apply N.ltb_lt in E2. auto.
  - auto.
Qed.

Lemma is_digit_range (c : char) :
  is_digit c = true -> Exists (fun z => z <= c < z + 10) decimal_zeros.
Proof.
  unfold is_digit, to_decimal. destruct (decimal_in decimal_zeros c) eqn:E;
    [|discriminate].
  intros _. apply decimal_in_range in E.
  eapply Exists_impl; [|exact E]. simpl. tauto.
Qed.

Lemma is_space_cases (c : char) :
  is_space c = true ->
  9 <= c <= 13 \/ 28 <= c <= 32 \/ c = 133 \/ c = 160 \/ c = 5760
  \/ 8192 <= c <= 8202 \/ c = 8232 \/ c = 8233 \/ c = 8239 \/ c = 8287 \/ c = 12288.
Proof.
  unfold is_space. rewrite !orb_true_iff, !andb_true_iff, !N.leb_le, !N.eqb_eq.
  tauto.
Qed.

Lemma lower_cases (c : char) :
  (lower c = c /\ (c < 65 \/ 90 < c)) \/ (65 <= c <= 90 /\ lower c = c + 32).
Proof.
  unfold lower. destruct ((65 <=? c) && (c <=? 90)) eqn:E.
  - apply andb_true_iff in E. rewrite !N.leb_le in E. right. lia.
  - apply andb_false_iff in E. rewrite !N.leb_gt in E. left. lia.
Qed.

Ltac range_cases H :=
  unfold decimal_zeros in H;
  repeat (apply Exists_cons in H; destruct H as [H|H]);
  [..|apply Exists_nil in H; contradiction].

Lemma digit_not_space (c : char) : is_digit c = true -> is_space c = false.
Proof.
  intros D. destruct (is_space c) eqn:S; auto.
  apply is_space_cases in S. apply is_digit_range in D.
  range_cases D; lia.
Qed.

Lemma digit_plain (c : char) :
  is_digit c = true -> (48 <= c <= 57 \/ 1632 <= c) /\ c <> euro_sign.
Proof.
  intros D. apply is_digit_range in D. unfold euro_sign.
  range_cases D; lia.
Qed.

Lemma digit_not_marker (c : char) : is_digit c = true -> marker_char c = false.
Proof.
  intros D. apply digit_plain in D. unfold marker_char, euro_sign in *.
  rewrite !orb_false_iff, !N.eqb_neq. destruct (lower_cases c); lia.
Qed.

Lemma numchar_not_space (c : char) : numchar c = true -> is_space c = false.
Proof.
  unfold numchar. rewrite !orb_true_iff, !N.eqb_eq.
  intros [[D| ->]| ->]; auto using digit_not_space.
Qed.

Lemma numchar_not_marker (c : char) : numchar c = true -> marker_char c = false.
Proof.
  unfold numchar. rewrite !orb_true_iff, !N.eqb_eq.
  intros [[D| ->]| ->]; auto using digit_not_marker.
Qed.

Lemma space_not_marker (c : char) : is_space c = true -> marker_char c = false.
Proof.
  intros S. apply is_space_cases in S. unfold marker_char, euro_sign.
  rewrite !orb_false_iff, !N.eqb_neq. destruct (lower_cases c); lia.
Qed.

Lemma space_not_numchar (c : char) : is_space c = true -> numchar c = false.
Proof.
  intros S. destruct (numchar c) eqn:E; auto.
  apply numchar_not_space in E. congruence.
Qed.

Lemma marker_not_numchar (c : char) : marker_char c = true -> numchar c = false.
Proof.
  intros S. destruct (numchar c) eqn:E; auto.
  apply numchar_not_marker in E. congruence.
Qed.

Lemma marker_not_space (c : char) : marker_char c = true -> is_space c = false.
Proof.
  intros S. destruct (is_space c) eqn:E; auto.
  apply space_not_marker in E. congruence.
Qed.

Lemma digit_numchar (c : char) : is_digit c = true -> numchar c = true.
Proof. unfold numchar. intros ->. reflexivity. Qed.

(** ** The shape of a match *)

Lemma thousands_numchar (t : pystr) :
  thousands t -> Forall (fun c => numchar c = true) t.
Proof.
  induction 1 as [|g t _ D _ IH]; constructor; auto.
  apply Forall_app. split; auto.
  eapply Forall_impl; [|exact D]. apply digit_numchar.
Qed.

Lemma price_number_numchar (num : pystr) :
  price_number num -> Forall (fun c => numchar c = true) num.
Proof.
  intros (d & t & c & -> & _ & D & T & C).
  rewrite !Forall_app. repeat split.
  - eapply Forall_impl; [|exact D]. apply digit_numchar.
  - apply thousands_numchar, T.
  - destruct C as [->|(g & -> & _ & G)]; constructor; auto.
    eapply Forall_impl; [|exact G]. apply digit_numchar.
Qed.

Lemma price_number_head (num : pystr) :
  price_number num -> exists c r, num = c :: r /\ is_digit c = true.
Proof.
  intros (d & t & c & -> & Len & D & _).
  destruct d as [|x d]; [simpl in Len; lia|].
  inversion D; subst. simpl. eauto.
Qed.

Lemma currency_marker_chars (cur : pystr) :
  currency_marker cur ->
  Forall (fun c => marker_char c = true) cur /\ cur <> [].
Proof.
  unfold marker_char.
  intros [->|[H|H]].
  - split; [|discriminate]. repeat constructor.
  - destruct cur as [|c1 [|c2 [|c3 [|c4 [|]]]]]; try discriminate.
    inversion H as [[E1 E2 E3 E4]]. split; [|discriminate].
    repeat constructor; rewrite ?E1, ?E2, ?E3, ?E4;
      rewrite ?orb_true_r; reflexivity.
  - destruct cur as [|c1 [|c2 [|c3 [|]]]]; try discriminate.
    inversion H as [[E1 E2 E3]]. split; [|discriminate].
    repeat constructor; rewrite ?E1, ?E2, ?E3;
      rewrite ?orb_true_r; reflexivity.
Qed.

(** A maximal run of a class at the start of a text is unique. *)
Lemma run_unique (p : char -> bool) (a b x y : pystr) :
  a ++ x = b ++ y ->
  Forall (fun c => p c = true) a -> Forall (fun c => p c = true) b ->
  stops p x -> stops p y ->
  a = b /\ x = y.
Proof.
  revert b. induction a as [|c a IH]; intros b E Fa Fb Sx Sy.
  - destruct b as [|c b]; auto. simpl in E. subst x.
    inversion Fb; subst. simpl in Sx. congruence.
  - destruct b as [|c' b].
    + simpl in E. subst y. inversion Fa; subst. simpl in Sy. congruence.
    + simpl in E. inversion E; subst. inversion Fa; inversion Fb; subst.
      destruct (IH b) as [-> ->]; auto.
Qed.

(** ** A match at the start of a text *)

Lemma currency_part_euro (A : Type) (c1 c2 c3 c4 : char) (r : pystr)
    (cap : capture) (k : cont A) (a : A) :
  lower c1 = 101 -> lower c2 = 117 -> lower c3 = 114 -> lower c4 = 111 ->
  k r cap = Some a ->
  bt currency_part (c1 :: c2 :: c3 :: c4 :: r) cap k = Some a.
Proof.
  intros E1 E2 E3 E4 K. unfold currency_part, chr. simpl.
  rewrite E1, E2, E3, E4. simpl. rewrite K. reflexivity.
Qed.

Lemma firstn_consumed (m s' : pystr) :
  firstn (length (m ++ s') - length s') (m ++ s') = m.
Proof.
  rewrite length_app, Nat.add_sub, firstn_app, firstn_all, Nat.sub_diag.
  simpl. apply app_nil_r.
Qed.

Lemma match_at_sound (s rest : pystr) (cap : capture) :
  match_at price_pattern s = Some (cap, rest) ->
  exists num ws cur,
    cap = Some num /\ s = num ++ ws ++ cur ++ rest
    /\ price_number num /\ white_space ws /\ currency_marker cur
    /\ marker_maximal cur rest.
Proof.
  unfold match_at, price_pattern. intros H.
  change (bt number_part s None
            (fun s1 _ => bt (Cat (star (Chr is_space)) currency_part) s1
                            (Some (firstn (length s - length s1) s))
                            (fun rest cap => Some (cap, rest)))
          = Some (cap, rest)) in H.
  apply bt_sound in H. destruct H as (num & s1 & _ & -> & Ln & H & _).
  rewrite firstn_consumed in H.
  change (bt (star (Chr is_space)) s1 (Some num)
            (fun s2 c2 => bt currency_part s2 c2 (fun rest cap => Some (cap, rest)))
          = Some (cap, rest)) in H.
  apply bt_sound in H. destruct H as (ws & s2 & c2 & -> & Lw & H & G).
  rewrite (G eq_refl) in H. clear G c2.
  pose proof H as H'.
  apply bt_sound in H'. destruct H' as (cur & r & c & -> & Lc & E & G).
  rewrite (G eq_refl) in E. inversion E; subst r cap. clear E G.
  apply lang_number_part in Ln. apply lang_spaces in Lw.
  apply lang_currency_part in Lc.
  exists num, ws, cur. repeat split; auto.
  intros Eur. destruct rest as [|c4 rest]; auto. intros E4.
  destruct cur as [|c1 [|c2 [|c3 [|]]]]; try discriminate.
  inversion Eur as [[E1 E2 E3]].
  cbn [app] in H.
  rewrite (@currency_part_euro _ c1 c2 c3 c4 rest (Some num)
             (fun rest cap => Some (cap, rest)) _ E1 E2 E3 E4 eq_refl) in H.
  inversion H as [E]. apply (f_equal (@length N)) in E. simpl in E. lia.
Qed.

Lemma match_at_complete (m num post : pystr) :
  price_match m num -> match_at price_pattern (m ++ post) <> None.
Proof.
  intros M. unfold match_at.
  apply (@bt_complete _ price_pattern _ m post); auto.
  - apply lang_price_pattern. eauto.
  - discriminate.
Qed.

(** A match is not empty: the scan of [findall] moves on. *)
Lemma match_at_shorter (s rest : pystr) (cap : capture) :
  match_at price_pattern s = Some (cap, rest) -> (length rest < length s)%nat.
Proof.
  intros H. apply match_at_sound in H.
  destruct H as (num & ws & cur & _ & -> & Pn & _).
  apply price_number_head in Pn. destruct Pn as (c & r & -> & _).
  simpl. rewrite !length_app. lia.
Qed.

(** The fuel of [findall] is enough: with more fuel the scan gives the
    same list. *)
Lemma findall_fuel (fuel fuel' : nat) (s : pystr) :
  (length s < fuel)%nat -> (length s < fuel')%nat ->
  findall_from fuel price_pattern s = findall_from fuel' price_pattern s.
Proof.
  revert fuel' s. induction fuel as [|fuel IH]; intros fuel' s L L'; [lia|].
  destruct fuel' as [|fuel']; [lia|]. simpl.
  destruct (match_at price_pattern s) as [[cap rest]|] eqn:M.
  - apply match_at_shorter in M. f_equal. apply IH; lia.
  - destruct s as [|c s]; auto. simpl in L, L'. apply IH; lia.
Qed.

(** ** Matches that overlap *)

Lemma stops_numchar (ws cur r : pystr) :
  white_space ws -> currency_marker cur -> stops numchar (ws ++ cur ++ r).
Proof.
  intros W C. destruct ws as [|c ws]; simpl.
  - apply currency_marker_chars in C. destruct C as [F Ne].
    destruct cur as [|c cur]; [congruence|]. inversion F; subst. simpl.
    apply marker_not_numchar; auto.
  - inversion W; subst. apply space_not_numchar; auto.
Qed.

Lemma stops_space (cur r : pystr) :
  currency_marker cur -> stops is_space (cur ++ r).
Proof.
  intros C. apply currency_marker_chars in C. destruct C as [F Ne].
  destruct cur as [|c cur]; [congruence|]. inversion F; subst. simpl.
  apply marker_not_space; auto.
Qed.

Lemma no_digit_behind_number (ws cur : pystr) :
  white_space ws -> currency_marker cur ->
  Forall (fun c => is_digit c = false) (ws ++ cur).
Proof.
  intros W C. apply Forall_app. split.
  - eapply Forall_impl; [|exact W]. simpl. intros c S.
    destruct (is_digit c) eqn:D; auto. apply digit_not_space in D. congruence.
  - apply currency_marker_chars in C. destruct C as [F _].
    eapply Forall_impl; [|exact F]. simpl. intros c S.
    destruct (is_digit c) eqn:D; auto. apply digit_not_marker in D. congruence.
Qed.

(** A match that starts inside another one shares its number from there on,
    its white space, and the start of its marker. *)
Lemma overlap (n1 w1 c1 r1 p n2 w2 c2 r2 : pystr) :
  price_number n1 -> white_space w1 -> currency_marker c1 ->
  price_number n2 -> white_space w2 -> currency_marker c2 ->
  n1 ++ w1 ++ c1 ++ r1 = p ++ n2 ++ w2 ++ c2 ++ r2 ->
  (length p < length (n1 ++ w1 ++ c1))%nat ->
  n1 = p ++ n2 /\ w1 = w2 /\ c1 ++ r1 = c2 ++ r2.
Proof.
  intros N1 W1 C1 N2 W2 C2 E Len.
  apply app_eq_app in E. destruct E as (l & [[E1 E2]|[E1 E2]]).
  - assert (Fl : Forall (fun c => numchar c = true) l).
    { apply price_number_numchar in N1. rewrite E1 in N1.
      apply Forall_app in N1. tauto. }
    destruct (@run_unique numchar l n2 (w1 ++ c1 ++ r1) (w2 ++ c2 ++ r2))
      as [-> E3]; auto using price_number_numchar, stops_numchar.
    destruct (@run_unique is_space w1 w2 (c1 ++ r1) (c2 ++ r2))
      as [-> E4]; auto using stops_space.
  - exfalso. subst p. rewrite !length_app in Len.
    destruct (price_number_head N2) as (d & n2' & -> & D).
    rewrite (app_assoc w1 c1 r1) in E2. apply app_eq_app in E2.
    destruct E2 as (l' & [[E3 E4]|[E3 E4]]).
    + destruct l' as [|x l'].
      * apply (f_equal (@length N)) in E3. rewrite !length_app in E3.
        simpl in E3. lia.
      * simpl in E4. inversion E4; subst x.
        pose proof (no_digit_behind_number W1 C1) as F. rewrite E3 in F.
        apply Forall_app in F. destruct F as [_ F]. inversion F; subst.
        congruence.
    + apply (f_equal (@length N)) in E3. rewrite !length_app in E3. lia.
Qed.

Lemma app_same_length (T : Type) (a b x y : list T) :
  a ++ x = b ++ y -> length a = length b -> a = b /\ x = y.
Proof.
  revert b. induction a as [|c a IH]; intros [|c' b] E L; simpl in *;
    try discriminate; auto.
  inversion E; subst. destruct (IH b) as [-> ->]; auto.
Qed.

(** Two markers at the same place are the same, or one is [Eur] and the
    other [Euro]. *)
Lemma markers_agree (c1 r1 c2 r2 : pystr) :
  currency_marker c1 -> currency_marker c2 -> c1 ++ r1 = c2 ++ r2 ->
  (c1 = c2 /\ r1 = r2)
  \/ (map lower c1 = lit "eur" /\ exists o, lower o = 111 /\ r1 = o :: r2)
  \/ (exists o, r2 = o :: r1).
Proof.
  intros C1 C2 E.
  assert (Len : forall c, currency_marker c ->
            (c = [euro_sign])
            \/ (length c = 4%nat /\ map lower c = lit "euro")
            \/ (length c = 3%nat /\ map lower c = lit "eur")).
  { intros c [->|[H|H]]; auto; right; [left|right]; split; auto;
      apply (f_equal (@length N)) in H; rewrite length_map in H; exact H. }
  assert (Head : forall c, length c = 4%nat \/ length c = 3%nat ->
            currency_marker c -> hd 0 c <> euro_sign).
  { intros c L [->|[H|H]]; [simpl in L; lia| |];
      destruct c as [|x c]; try discriminate; inversion H as [[Hx _]];
      simpl; intros ->; discriminate. }
  destruct (Len _ C1) as [->|[[L1 M1]|[L1 M1]]];
    destruct (Len _ C2) as [->|[[L2 M2]|[L2 M2]]].
  all: try (left; apply app_same_length; auto; congruence).
  all: try (exfalso; destruct c2 as [|x c2]; [discriminate|];
            inversion E; subst x;
            apply (@Head (euro_sign :: c2)); auto; fail).
  all: try (exfalso; destruct c1 as [|x c1]; [discriminate|];
            inversion E; subst x;
            apply (@Head (euro_sign :: c1)); auto; fail).
  - right. right.
    destruct c1 as [|x1 [|x2 [|x3 [|x4 [|]]]]]; try discriminate.
    destruct c2 as [|y1 [|y2 [|y3 [|]]]]; try discriminate.
    inversion E; subst. eauto.
  - right. left. split; auto.
    destruct c1 as [|x1 [|x2 [|x3 [|]]]]; try discriminate.
    destruct c2 as [|y1 [|y2 [|y3 [|y4 [|]]]]]; try discriminate.
    inversion E; subst. inversion M2. eauto.
Qed.

(** ** The scan of [findall] *)

Lemma price_match_nonempty (m num : pystr) : price_match m num -> m <> [].
Proof.
  intros (ws & cur & -> & Pn & _).
  destruct (price_number_head Pn) as (c & r & -> & _). discriminate.
Qed.

Lemma occurs_cons (c : char) (s pre m post num : pystr) :
  occurs (c :: s) pre m post num ->
  pre = [] \/ exists pre', pre = c :: pre' /\ occurs s pre' m post num.
Proof.
  intros [E M]. destruct pre as [|x pre]; auto. right.
  simpl in E. inversion E; subst. exists pre. split; auto. split; auto.
Qed.

Lemma no_match_at_head (s m post num : pystr) :
  match_at price_pattern s = None -> ~ occurs s [] m post num.
Proof.
  intros H [E M]. simpl in E. subst s. revert H. eapply match_at_complete; eauto.
Qed.

Lemma has_match_dec (s : pystr) : has_match s \/ ~ has_match s.
Proof.
  induction s as [|c s IH].
  - right. intros (pre & m & post & num & E & M).
    apply price_match_nonempty in M. destruct pre; destruct m; try discriminate.
    congruence.
  - destruct (match_at price_pattern (c :: s)) as [[cap rest]|] eqn:H.
    + left. apply match_at_sound in H.
      destruct H as (num & ws & cur & _ & E & Pn & W & C & _).
      exists [], (num ++ ws ++ cur), rest, num. split.
      * simpl. rewrite E, <- !app_assoc. reflexivity.
      * exists ws, cur. auto.
    + destruct IH as [(pre & m & post & num & E & M)|IH].
      * left. exists (c :: pre), m, post, num. split; auto. simpl. congruence.
      * right. intros (pre & m & post & num & O).
        destruct (occurs_cons O) as [->|(pre' & -> & O')].
        -- eapply no_match_at_head; eauto.
        -- apply IH. red. eauto.
Qed.

Lemma findall_none (fuel : nat) (s : pystr) :
  ~ has_match s -> findall_from fuel price_pattern s = [].
Proof.
  revert s. induction fuel as [|fuel IH]; intros s H; simpl; auto.
  destruct (match_at price_pattern s) as [[cap rest]|] eqn:M.
  - exfalso. apply H. apply match_at_sound in M.
    destruct M as (num & ws & cur & _ & E & Pn & W & C & _).
    exists [], (num ++ ws ++ cur), rest, num. split.
    + simpl. rewrite E, <- !app_assoc. reflexivity.
    + exists ws, cur. auto.
  - destruct s as [|c s]; auto. apply IH.
    intros (pre & m & post & num & E & O). apply H.
    exists (c :: pre), m, post, num. split; auto. simpl. congruence.
Qed.

Lemma last_match_unique (s pre m post num pre' m' post' num' : pystr) :
  last_match s pre m post num -> last_match s pre' m' post' num' ->
  pre = pre' /\ m = m' /\ post = post' /\ num = num'.
Proof.
  intros [O L] [O' L'].
  destruct (L _ _ _ _ O') as [A1 A2]. destruct (L' _ _ _ _ O) as [B1 B2].
  assert (Ep : length post = length post') by lia.
  assert (Em : length m = length m').
  { specialize (A2 (eq_sym Ep)). specialize (B2 Ep). lia. }
  destruct O as [E M], O' as [E' M'].
  assert (El : length pre = length pre').
  { apply (f_equal (@length N)) in E, E'. rewrite !length_app in E, E'. lia. }
  rewrite E in E'. apply app_same_length in E'; auto. destruct E' as [<- E'].
  apply app_same_length in E'; auto. destruct E' as [<- <-].
  repeat split; auto.
  destruct M as (ws & cur & Em1 & Pn & W & C).
  destruct M' as (ws' & cur' & Em2 & Pn' & W' & C').
  rewrite Em1 in Em2.
  assert (X : num ++ ws ++ cur ++ [] = num' ++ ws' ++ cur' ++ []).
  { rewrite !app_nil_r. exact Em2. }
  apply run_unique with (p := numchar) in X;
    auto using price_number_numchar, stops_numchar. tauto.
Qed.

Lemma split_occurrence (x s a m b num : pystr) :
  occurs (x ++ s) a m b num ->
  (length a < length x)%nat \/ exists a', a = x ++ a' /\ occurs s a' m b num.
Proof.
  intros [E M]. apply app_eq_app in E. destruct E as (l & [[E1 E2]|[E1 E2]]).
  - destruct l as [|c l].
    + right. exists []. rewrite app_nil_r in E1. simpl in E2. subst.
      rewrite app_nil_r. split; auto. split; auto.
    + left. subst x. rewrite length_app. simpl. lia.
  - right. exists l. split; auto. split; auto.
Qed.

(** No match that starts inside the match found at the start of [s] ends
    before it. *)
Lemma inside_first_match (s rest a m b num : pystr) (cap : capture) :
  match_at price_pattern s = Some (cap, rest) ->
  occurs s a m b num ->
  (length a + length rest < length s)%nat ->
  (length rest <= length b)%nat.
Proof.
  intros H [E (w2 & c2 & -> & N2 & W2 & C2)] Len.
  apply match_at_sound in H.
  destruct H as (n1 & w1 & c1 & _ & -> & N1 & W1 & C1 & Mx).
  rewrite <- !app_assoc in E.
  apply overlap in E; auto.
  - destruct E as (_ & _ & E). apply markers_agree in E; auto.
    destruct E as [[_ ->]|[(Eur & o & Lo & ->)|(o & ->)]]; simpl; try lia.
    specialize (Mx Eur). simpl in Mx. contradiction.
  - rewrite !length_app in *. lia.
Qed.

Lemma last_match_behind (x s pre m post num : pystr) :
  last_match s pre m post num ->
  (forall a m2 b n2, occurs (x ++ s) a m2 b n2 ->
     (length a < length x)%nat -> (length s <= length b)%nat) ->
  last_match (x ++ s) (x ++ pre) m post num.
Proof.
  intros [[E M] L] H. split.
  - split; auto. rewrite E, <- app_assoc. reflexivity.
  - intros a m2 b n2 O. destruct (@split_occurrence _ _ _ _ _ _ O) as [Lt|(a' & -> & O')].
    + specialize (H _ _ _ _ O Lt).
      apply price_match_nonempty in M.
      apply (f_equal (@length N)) in E. rewrite !length_app in E.
      destruct m; [congruence|]. simpl in E. lia.
    + apply L in O'. exact O'.
Qed.

(** The scan ends with the number of the last match. *)
Lemma scan_spec (fuel : nat) (s : pystr) :
  (length s < fuel)%nat -> has_match s ->
  exists l pre m post num,
    findall_from fuel price_pattern s = l ++ [num]
    /\ last_match s pre m post num.
Proof.
  revert s. induction fuel as [|fuel IH]; intros s Len Hm; [lia|].
  simpl. destruct (match_at price_pattern s) as [[cap rest]|] eqn:M.
  - pose proof (@match_at_shorter _ _ _ M) as Sh.
    pose proof (fun a m b num => @inside_first_match s rest a m b num cap M) as In.
    pose proof M as M'. apply match_at_sound in M'.
    destruct M' as (n1 & w1 & c1 & -> & E & N1 & W1 & C1 & Mx).
    assert (Ex : s = (n1 ++ w1 ++ c1) ++ rest).
    { rewrite E, <- !app_assoc. reflexivity. }
    assert (O1 : occurs s [] (n1 ++ w1 ++ c1) rest n1).
    { split; auto. exists w1, c1. auto. }
    destruct (has_match_dec rest) as [Hr|Hr].
    + destruct (IH rest) as (l & pre & m & post & num & F & L); auto; [lia|].
      exists (n1 :: l), ((n1 ++ w1 ++ c1) ++ pre), m, post, num.
      rewrite F. split; auto. rewrite Ex at 1.
      apply last_match_behind; auto.
      intros a m2 b n2 O Lt. rewrite <- Ex in O.
      apply (In _ _ _ _ O). rewrite Ex, length_app. lia.
    + rewrite findall_none; auto.
      exists [], [], (n1 ++ w1 ++ c1), rest, n1. split; auto. split; auto.
      intros a m2 b n2 O.
      assert (Lb : (length rest <= length b)%nat).
      { rewrite Ex in O. destruct (@split_occurrence _ _ _ _ _ _ O) as [Lt|(a' & -> & O')].
        - rewrite <- Ex in O. apply (In _ _ _ _ O).
          rewrite Ex, length_app. lia.
        - exfalso. apply Hr. red. eauto. }
      split; auto. intros Eb. destruct O as [Eo _].
      rewrite Ex in Eo. apply (f_equal (@length N)) in Eo.
      rewrite !length_app in Eo. rewrite !length_app. lia.
  - destruct s as [|c s].
    + exfalso. destruct Hm as (pre & m & post & num & E & Mm).
      apply price_match_nonempty in Mm.
      destruct pre; destruct m; try discriminate. congruence.
    + assert (Hs : has_match s).
      { destruct Hm as (pre & m & post & num & O).
        destruct (occurs_cons O) as [->|(pre' & -> & O')].
        - exfalso. eapply no_match_at_head; eauto.
        - red. eauto. }
      simpl in Len.
      destruct (IH s) as (l & pre & m & post & num & F & L); auto; [lia|].
      exists l, (c :: pre), m, post, num. split; auto.
      apply (@last_match_behind [c]); auto.
      intros a m2 b n2 O Lt. exfalso.
      destruct a; [|simpl in Lt; lia].
      eapply no_match_at_head; eauto.
Qed.

Lemma findall_last (text pre m post num : pystr) :
  last_match text pre m post num ->
  exists l, findall price_pattern text = l ++ [num].
Proof.
  intros L. destruct (@scan_spec (S (length text)) text)
    as (l & pre' & m' & post' & num' & F & L'); [lia| |].
  - destruct L as [O _]. red. eauto.
  - destruct (last_match_unique L L') as (_ & _ & _ & ->). eauto.
Qed.

Lemma findall_empty (text : pystr) :
  findall price_pattern text = [] <-> ~ has_match text.
Proof.
  split.
  - intros E Hm. destruct (@scan_spec (S (length text)) text)
      as (l & pre' & m' & post' & num' & F & _); auto.
    unfold findall in E. rewrite E in F. destruct l; discriminate.
  - apply findall_none.
Qed.

(** ** The value of a number of the pattern *)

Lemma span_run (p : char -> bool) (a x : pystr) :
  Forall (fun c => p c = true) a -> stops p x -> span p (a ++ x) = (a, x).
Proof.
  intros F S. induction F as [|c a P _ IH]; simpl.
  - destruct x as [|c x]; simpl in *; auto. rewrite S. reflexivity.
  - rewrite P, IH. reflexivity.
Qed.

Lemma dropwhile_stops (p : char -> bool) (s : pystr) :
  stops p s -> dropwhile p s = s.
Proof. destruct s as [|c s]; simpl; auto. intros ->. reflexivity. Qed.

Lemma strip_id (s : pystr) :
  Forall (fun c => c_isspace c = false) s -> strip s = s.
Proof.
  intros F. unfold strip.
  rewrite (@dropwhile_stops c_isspace s).
  - rewrite dropwhile_stops; [apply rev_involutive|].
    apply Forall_rev in F. destruct F; simpl; auto.
  - destruct F; simpl; auto.
Qed.

Lemma drop_underscores_id (s : pystr) (prev : char) :
  prev <> underscore -> Forall (fun c => c <> underscore) s ->
  drop_underscores prev s = Some s.
Proof.
  intros Hp F. revert prev Hp. induction F as [|c s Hc _ IH]; intros prev Hp; simpl.
  - apply N.eqb_neq in Hp. rewrite Hp. reflexivity.
  - apply N.eqb_neq in Hp, Hc. rewrite Hp, Hc. simpl.
    rewrite IH; auto. apply N.eqb_neq. exact Hc.
Qed.

(** A decimal digit becomes the ASCII digit of its value. *)
Lemma to_ascii_digit (c : char) :
  is_digit c = true ->
  exists d, to_decimal c = Some d /\ d < 10 /\ to_ascii c = 48 + d.
Proof.
  intros D. pose proof (@digit_plain c D) as [Pl _].
  pose proof (@digit_not_space c D) as Sp.
  unfold is_digit in D. destruct (to_decimal c) as [d|] eqn:E; [|discriminate].
  exists d. split; auto.
  pose proof E as R. apply decimal_in_range in R.
  assert (Hd : d < 10).
  { apply Exists_exists in R. destruct R as (z & _ & R). lia. }
  split; auto. unfold to_ascii. destruct (c <? 127) eqn:Lt.
  - apply N.ltb_lt in Lt. assert (48 <= c <= 57) by lia.
    unfold to_decimal, decimal_zeros in E. simpl in E.
    replace ((48 <=? c) && (c <? 58)) with true in E.
    + inversion E. lia.
    + symmetry. apply andb_true_iff. rewrite N.leb_le, N.ltb_lt. lia.
  - rewrite Sp, E. reflexivity.
Qed.

Lemma number_digits_from (ds : pystr) (acc : N) :
  digit_string ds ->
  fold_left (fun acc c => 10 * acc + (c - 48)) (map to_ascii ds) acc
  = fold_left (fun acc c => 10 * acc
       + match to_decimal c with Some d => d | None => 0 end) ds acc.
Proof.
  intros F. revert acc. induction F as [|c ds D _ IH]; intros acc; simpl; auto.
  destruct (@to_ascii_digit c D) as (d & -> & _ & ->).
  rewrite IH. f_equal. lia.
Qed.

Lemma number_digits (ds : pystr) :
  digit_string ds -> number (map to_ascii ds) = digits_value ds.
Proof. apply number_digits_from. Qed.


Lemma digit_not_separator (c : char) :
  is_digit c = true -> (c =? dot) = false /\ (c =? comma) = false.
Proof.
  intros D. apply digit_plain in D. unfold dot, comma.
  rewrite !N.eqb_neq. lia.
Qed.

Lemma digits_untouched (x : pystr) :
  digit_string x ->
  filter (fun c => negb (c =? dot)) x = x
  /\ replace dot [] x = x /\ replace comma [dot] x = x.
Proof.
  induction 1 as [|c x D _ (IH1 & IH2 & IH3)]; simpl; auto.
  destruct (@digit_not_separator c D) as [-> ->]. simpl.
  rewrite IH1, IH2, IH3. auto.
Qed.

Lemma thousands_digits (t : pystr) :
  thousands t ->
  exists td, digit_string td
    /\ filter (fun c => negb (c =? dot)) t = td /\ replace dot [] t = td.
Proof.
  induction 1 as [|g t _ D _ (td & Dt & E1 & E2)].
  - exists []. repeat split. constructor.
  - exists (g ++ td). unfold replace in *. simpl.
    rewrite filter_app, flat_map_app, E1, E2.
    destruct (digits_untouched D) as (-> & G & _). unfold replace in G.
    rewrite G. repeat split; auto. apply Forall_app. auto.
Qed.

(** The digits before the comma, and those behind it. *)
Lemma price_number_parts (num : pystr) :
  price_number num ->
  exists ip g, digit_string ip /\ ip <> [] /\ digit_string g
    /\ ((g = [] /\ filter (fun c => negb (c =? dot)) num = ip
         /\ replace comma [dot] (replace dot [] num) = ip)
        \/ (length g = 2%nat
            /\ filter (fun c => negb (c =? dot)) num = ip ++ comma :: g
            /\ replace comma [dot] (replace dot [] num) = ip ++ dot :: g)).
Proof.
  intros (d & t & c & -> & Len & D & T & C).
  destruct (thousands_digits T) as (td & Dt & E1 & E2).
  destruct (digits_untouched D) as (D1 & D2 & D3).
  assert (Dip : digit_string (d ++ td)) by (apply Forall_app; auto).
  destruct (digits_untouched Dip) as (_ & _ & I3).
  assert (Ne : d ++ td <> []).
  { destruct d; [simpl in Len; lia|discriminate]. }
  assert (F1 : filter (fun c => negb (c =? dot)) (d ++ t ++ c)
               = (d ++ td) ++ filter (fun c => negb (c =? dot)) c).
  { rewrite !filter_app, E1, D1, app_assoc. reflexivity. }
  assert (F2 : replace comma [dot] (replace dot [] (d ++ t ++ c))
               = (d ++ td) ++ replace comma [dot] (replace dot [] c)).
  { destruct (digits_untouched Dt) as (_ & _ & T3).
    unfold replace in *. rewrite !flat_map_app, E2, D2, D3, T3, app_assoc.
    reflexivity. }
  rewrite F1, F2. exists (d ++ td).
  destruct C as [->|(g & -> & Lg & G)].
  - exists []. repeat split; auto; [constructor|]. left. simpl.
    rewrite !app_nil_r. auto.
  - exists g. repeat split; auto. right.
    destruct (digits_untouched G) as (G1 & G2 & G3). unfold replace in *.
    simpl. rewrite G1, G2. simpl. rewrite G3. auto.
Qed.

Lemma ascii_digits_of (ds : pystr) :
  digit_string ds -> Forall (fun c => ascii_digit c = true) (map to_ascii ds).
Proof.
  induction 1 as [|c ds D _ IH]; simpl; constructor; auto.
  destruct (@to_ascii_digit c D) as (d & _ & Hd & ->).
  unfold ascii_digit. apply andb_true_iff. rewrite !N.leb_le. lia.
Qed.

Lemma ascii_digit_plain (c : char) :
  ascii_digit c = true ->
  c_isspace c = false /\ c <> underscore /\ (c =? 45) = false
  /\ (c =? 43) = false /\ (c =? dot) = false.
Proof.
  unfold ascii_digit, c_isspace, underscore, dot.
  rewrite andb_true_iff, orb_false_iff, andb_false_iff, !N.leb_le, !N.leb_gt,
    !N.eqb_neq. lia.
Qed.

Lemma parse_decimal_plain (ip g : pystr) :
  Forall (fun c => ascii_digit c = true) ip -> ip <> [] ->
  Forall (fun c => ascii_digit c = true) g ->
  parse_decimal (ip ++ match g with [] => [] | _ :: _ => dot :: g end)
  = Some (binary64 (inject_Z (Z.of_N (number (ip ++ g)))
                    * inject_Z 10 ^ (0 - Z.of_nat (length g)))).
Proof.
  intros Fi Ne Fg. unfold parse_decimal.
  assert (Sg : sign_of (ip ++ match g with [] => [] | _ :: _ => dot :: g end)
               = (false, ip ++ match g with [] => [] | _ :: _ => dot :: g end)).
  { destruct ip as [|c ip]; [congruence|]. inversion Fi; subst.
    destruct (@ascii_digit_plain c) as (_ & _ & E1 & E2 & _); auto.
    simpl. rewrite E1, E2. reflexivity. }
  rewrite Sg. rewrite span_run; auto.
  - destruct g as [|c g].
    + rewrite !app_nil_r. destruct ip; [congruence|]. reflexivity.
    + rewrite N.eqb_refl.
      rewrite <- (app_nil_r (c :: g)) at 1. rewrite span_run; auto; [|exact I].
      simpl parse_exponent. cbv iota.
      destruct (ip ++ c :: g) eqn:E; [destruct ip; discriminate|].
      reflexivity.
  - destruct g; simpl; auto.
Qed.

Lemma plain_numeral (s : pystr) :
  Forall (fun c => ascii_digit c = true \/ c = dot) s ->
  strip s = s /\ drop_underscores 0 s = Some s.
Proof.
  intros F. split.
  - apply strip_id. eapply Forall_impl; [|exact F]. simpl.
    intros c [D| ->]; [|reflexivity]. apply ascii_digit_plain in D. tauto.
  - apply drop_underscores_id; [discriminate|].
    eapply Forall_impl; [|exact F]. simpl.
    intros c [D| ->]; [|discriminate]. apply ascii_digit_plain in D. tauto.
Qed.

Lemma two_decimals (A va vb : N) :
  inject_Z (Z.of_N (10 * (10 * A + va) + vb)) * inject_Z 10 ^ (0 - Z.of_nat 2)
  == inject_Z (Z.of_N A)
     + inject_Z (Z.of_N (10 * (10 * 0 + va) + vb)) / inject_Z (10 ^ Z.of_nat 2).
Proof.
  change (inject_Z 10 ^ (0 - Z.of_nat 2))%Q with (1 # 100)%Q.
  change (inject_Z (10 ^ Z.of_nat 2)) with (100 # 1)%Q.
  replace (Z.of_N (10 * (10 * A + va) + vb))
    with (10 * (10 * Z.of_N A + Z.of_N va) + Z.of_N vb)%Z by lia.
  replace (Z.of_N (10 * (10 * 0 + va) + vb))
    with (10 * Z.of_N va + Z.of_N vb)%Z by lia.
  generalize (Z.of_N A) (Z.of_N va) (Z.of_N vb). intros x y z.
  assert (E : (10 * (10 * x + y) + z = x * 100 + (10 * y + z))%Z) by lia.
  revert E. generalize (10 * (10 * x + y) + z)%Z (10 * y + z)%Z.
  intros u v ->. unfold Qeq. simpl. lia.
Qed.

(** [clean_price] reads a number of the pattern, and reads it as the
    description of the extractor says. *)
Lemma binary64_compat (q q' : Q) : q == q' -> binary64 q = binary64 q'.
Proof. intros H. unfold binary64. rewrite (Qred_complete q q' H). reflexivity. Qed.

Lemma round_half_even_nonneg (n d : Z) :
  (0 <= n)%Z -> (0 < d)%Z -> (0 <= round_half_even n d)%Z.
Proof.
  intros Hn Hd. unfold round_half_even.
  pose proof (Z.div_pos n d Hn Hd).
  destruct (2 * (n mod d) ?= d)%Z; [destruct (Z.even (n / d))| |]; lia.
Qed.

Lemma round_half_even_whole (n : Z) : round_half_even n 1 = n.
Proof.
  unfold round_half_even. rewrite Z.mod_1_r, Z.div_1_r. reflexivity.
Qed.

Lemma binary64_of_nonneg (n d : Z) :
  (0 < n)%Z -> (0 < d)%Z ->
  binary64_of false n d = Inf false
  \/ exists q, binary64_of false n d = Fin q /\ (0 <= q)%Q.
Proof.
  intros Hn Hd. unfold binary64_of.
  set (u := Z.max (exponent n d - 52) (-1074)).
  assert (M : (0 <= round_half_even (fst (scaled n d (- u))) (snd (scaled n d (- u))))%Z).
  { unfold scaled. destruct (Z.leb_spec 0 (- u)); simpl;
      apply round_half_even_nonneg;
      first [lia
            |apply Z.mul_nonneg_nonneg; [lia|apply Z.pow_nonneg; lia]
            |apply Z.mul_pos_pos; [lia|apply Z.pow_pos_nonneg; lia]]. }
  destruct (scaled n d (- u)) as [a b]. simpl in M.
  destruct (2 ^ (1024 - u) <=? round_half_even a b)%Z; [left; reflexivity|right].
  destruct (scaled (round_half_even a b) 1 u) as [x y] eqn:S.
  eexists. split; [reflexivity|]. rewrite Qred_correct.
  assert (X : (0 <= x)%Z).
  { unfold scaled in S. destruct (0 <=? u)%Z; injection S as <- <-; [|exact M].
    apply Z.mul_nonneg_nonneg; [exact M|]. apply Z.pow_nonneg. lia. }
  unfold Qle. simpl. lia.
Qed.

Lemma binary64_nonneg (q : Q) :
  (0 <= q)%Q ->
  binary64 q = Inf false \/ exists q', binary64 q = Fin q' /\ (0 <= q')%Q.
Proof.
  intros H. unfold binary64. rewrite <- (Qred_correct q) in H.
  destruct (Qred q) as [rn rd]. simpl Qnum. simpl Qden.
  destruct rn as [|p|p].
  - right. exists 0%Q. split; [reflexivity|apply Qle_refl].
  - apply binary64_of_nonneg; lia.
  - exfalso. unfold Qle in H. simpl in H. lia.
Qed.

Lemma exponent_whole (z : Z) : (0 < z)%Z -> exponent z 1 = Z.log2 z.
Proof.
  intros Hz. unfold exponent. change (Z.log2 1) with 0%Z. rewrite Z.sub_0_r.
  destruct (Z.log2_spec z Hz) as [Lo _].
  pose proof (Z.log2_nonneg z) as Ne.
  unfold scaled. destruct (0 <=? - Z.log2 z)%Z eqn:E.
  - apply Z.leb_le in E. assert (Z.log2 z = 0)%Z as E0 by lia.
    rewrite E0 in *. simpl in Lo. 
    destruct (1 <=? z * 2 ^ (- 0))%Z eqn:T; [reflexivity|].
    apply Z.leb_gt in T. simpl in T. lia.
  - rewrite Z.opp_involutive, Z.mul_1_l.
    destruct (2 ^ Z.log2 z <=? z)%Z eqn:T; [reflexivity|].
    apply Z.leb_gt in T. lia.
Qed.

Lemma binary64_whole (z : Z) :
  (0 <= z < 2 ^ 53)%Z ->
  exists q, binary64 (inject_Z z) = Fin q /\ q == inject_Z z.
Proof.
  intros [Lo Hi]. destruct z as [|p|p]; [| |lia].
  { exists 0%Q. split; reflexivity. }
  unfold binary64.
  rewrite (Qcanon.Qred_identity (inject_Z (Z.pos p))) by apply Z.gcd_1_r.
  simpl Qnum. simpl Qden. unfold binary64_of.
  rewrite exponent_whole by lia.
  set (z := Z.pos p) in *. set (e := Z.log2 z).
  assert (Hz : (0 < z)%Z) by (unfold z; lia).
  destruct (Z.log2_spec z Hz) as [L1 L2]. fold e in L1, L2.
  assert (He : (0 <= e <= 52)%Z).
  { split; [apply Z.log2_nonneg|]. 
    assert (e < 53)%Z; [|lia]. apply Z.log2_lt_pow2; assumption. }
  replace (Z.max (e - 52) (-1074)) with (e - 52)%Z by lia.
  unfold scaled at 1.
  replace (0 <=? - (e - 52))%Z with true by (symmetry; apply Z.leb_le; lia).
  rewrite round_half_even_whole.
  assert (Hm : (z * 2 ^ (- (e - 52)) < 2 ^ 53)%Z).
  { replace 53%Z with (Z.succ e + (- (e - 52)))%Z by lia.
    rewrite Z.pow_add_r by lia.
    apply Z.mul_lt_mono_pos_r; [apply Z.pow_pos_nonneg; lia|exact L2]. }
  assert (Hb : (2 ^ 53 <= 2 ^ (1024 - (e - 52)))%Z)
    by (apply Z.pow_le_mono_r; lia).
  destruct (2 ^ (1024 - (e - 52)) <=? z * 2 ^ (- (e - 52)))%Z eqn:O.
  { apply Z.leb_le in O. lia. }
  destruct (scaled (z * 2 ^ (- (e - 52))) 1 (e - 52)) as [x y] eqn:S.
  eexists. split; [reflexivity|]. rewrite Qred_correct.
  unfold scaled in S. destruct (0 <=? e - 52)%Z eqn:U; injection S as <- <-.
  - apply Z.leb_le in U. replace (e - 52)%Z with 0%Z by lia.
    unfold Qeq. simpl. lia.
  - assert (W : (0 < 2 ^ (- (e - 52)))%Z) by (apply Z.pow_pos_nonneg; lia).
    destruct (2 ^ (- (e - 52)))%Z as [|w|w]; try lia.
    unfold Qeq. simpl. lia.
Qed.

Lemma clean_price_value (num : pystr) :
  price_number num -> clean_price num = Some (binary64 (decimal_value num)).
Proof.
  intros Pn.
  destruct (price_number_parts Pn) as (ip & g & Di & Ne & Dg & H).
  pose proof (ascii_digits_of Di) as Ai. pose proof (ascii_digits_of Dg) as Ag.
  assert (Nea : map to_ascii ip <> []) by (destruct ip; [congruence|discriminate]).
  unfold clean_price, float, decimal_value.
  destruct H as [(-> & F & R)|(Lg & F & R)]; rewrite R, F.
  - destruct (@plain_numeral (map to_ascii ip)) as [-> ->].
    { eapply Forall_impl; [|exact Ai]. simpl. auto. }
    pose proof (@parse_decimal_plain (map to_ascii ip) [] Ai Nea (Forall_nil _)) as P.
    rewrite !app_nil_r in P. rewrite P.
    f_equal. apply binary64_compat.
    rewrite <- (app_nil_r ip) at 2. rewrite span_run; [|idtac|exact I].
    + rewrite number_digits; auto. simpl.
      unfold Qeq. simpl. ring.
    + eapply Forall_impl; [|exact Di]. simpl. intros c D.
      apply digit_not_separator in D. destruct D as [_ ->]. reflexivity.
  - rewrite map_app. simpl map.
    change (to_ascii dot) with dot.
    destruct (@plain_numeral (map to_ascii ip ++ dot :: map to_ascii g)) as [-> ->].
    { apply Forall_app. split; [|constructor; auto].
      - eapply Forall_impl; [|exact Ai]. simpl. auto.
      - eapply Forall_impl; [|exact Ag]. simpl. auto. }
    destruct g as [|a [|b [|]]]; try discriminate. clear Lg.
    pose proof (@parse_decimal_plain (map to_ascii ip) (map to_ascii [a; b])
                  Ai Nea Ag) as P.
    simpl map in P |- *. rewrite P.
    f_equal. apply binary64_compat.
    rewrite span_run.
    + change (map to_ascii ip ++ [to_ascii a; to_ascii b])
        with (map to_ascii ip ++ map to_ascii [a; b]).
      rewrite <- map_app, number_digits by (apply Forall_app; auto).
      unfold digits_value. rewrite fold_left_app.
      cbn [fold_left tl length]. apply two_decimals.
    + eapply Forall_impl; [|exact Di]. simpl. intros c D.
      apply digit_not_separator in D. destruct D as [_ ->]. reflexivity.
    + reflexivity.
Qed.

(** ** The price extractor *)

Lemma last_match_number (text pre m post num : pystr) :
  last_match text pre m post num -> price_number num.
Proof. intros [[_ (ws & cur & _ & Pn & _)] _]. exact Pn. Qed.

Lemma extract_price_at_last (text pre m post num : pystr) :
  last_match text pre m post num -> extract_price text = clean_price num.
Proof.
  intros L. destruct (findall_last L) as (l & E).
  unfold extract_price. rewrite E.
  destruct (l ++ [num]) eqn:X; [destruct l; discriminate|].
  rewrite <- X, last_last. reflexivity.
Qed.

Lemma last_match_exists (text : pystr) :
  has_match text -> exists pre m post num, last_match text pre m post num.
Proof.
  intros H. destruct (@scan_spec (S (length text)) text)
    as (l & pre & m & post & num & _ & L); auto. eauto.
Qed.

Lemma extract_price_none (text : pystr) :
  extract_price text = None <-> ~ has_match text.
Proof.
  split.
  - intros E H. destruct (last_match_exists H) as (pre & m & post & num & L).
    rewrite (extract_price_at_last L) in E.
    rewrite (clean_price_value (last_match_number L)) in E. discriminate.
  - intros H. apply findall_empty in H. unfold extract_price. rewrite H.
    reflexivity.
Qed.

Lemma findall_numbers (fuel : nat) (s g : pystr) :
  In g (findall_from fuel price_pattern s) -> price_number g.
Proof.
  revert s. induction fuel as [|fuel IH]; intros s; simpl; [tauto|].
  destruct (match_at price_pattern s) as [[cap rest]|] eqn:M.
  - apply match_at_sound in M.
    destruct M as (num & ws & cur & -> & _ & Pn & _).
    intros [<-|H]; eauto.
  - destruct s; simpl; [tauto|]. apply IH.
Qed.

(** C1.  For every text, [extract_price] returns nothing exactly when no
    substring of the text matches the currency pattern; when there is a
    match there is a last one (no match ends behind it, and it is the
    longest that ends there), and [extract_price] returns the float of its
    number, read with the dots dropped and the comma as the decimal point:
    the binary64 number nearest to that value, an infinity when the value
    is beyond the range.  For "Preis: 1.200,50 EUR-sign oder 1.300,00 EUR"
    the result is 1300; for "0,10 EUR" it is the binary64 number next to
    one tenth, and for "9.007.199.254.740.995 EUR", halfway between two
    binary64 numbers, it is the one with the even significand. *)
Theorem extract_price_last_match :
  (forall text,
      (extract_price text = None <-> ~ has_match text)
      /\ (has_match text ->
          exists pre m post num, last_match text pre m post num)
      /\ (forall pre m post num, last_match text pre m post num ->
          extract_price text = Some (binary64 (decimal_value num))))
  /\ extract_price two_prices = Some (Fin 1300)
  /\ extract_price (lit "0,10 EUR")
     = Some (Fin (3602879701896397 # 36028797018963968))
  /\ extract_price (lit "9.007.199.254.740.995 EUR")
     = Some (Fin (9007199254740996 # 1)).
Proof.
  split; [|repeat split; vm_compute; reflexivity].
  intros text. split; [apply extract_price_none|].
  split; [apply last_match_exists|].
  intros pre m post num L. rewrite (extract_price_at_last L).
  apply clean_price_value. eapply last_match_number; eauto.
Qed.

(** The claim as it was written, with the value of the number itself as
    the result, fails where the value is beyond the range of binary64:
    for a price of 10 ^ 309 the result is an infinity. *)
Lemma extract_price_beyond_range :
  decimal_value (lit "1" ++ concat (repeat (lit ".000") 103)) == inject_Z (10 ^ 309)
  /\ extract_price beyond_range = Some (Inf false).
Proof. split; vm_compute; reflexivity. Qed.

Lemma two_prices_has_match : has_match two_prices.
Proof.
  exists (lit "Preis: 1.200,50 " ++ [euro_sign] ++ lit " oder "),
         (lit "1.300,00 EUR"), [], (lit "1.300,00").
  split; [reflexivity|].
  exists (lit " "), (lit "EUR"). split; [reflexivity|].
  split; [|split; [repeat constructor|right; right; reflexivity]].
  exists (lit "1"), (lit ".300"), (lit ",00"). split; [reflexivity|].
  split; [simpl; lia|]. split; [repeat constructor|]. split.
  - apply (@thousands_cons (lit "300") []); [reflexivity|repeat constructor|constructor].
  - right. exists (lit "00"). split; [reflexivity|].
    split; [reflexivity|repeat constructor].
Qed.

(** C1 at the example: the text has a last match, and [extract_price]
    returns the value of its number. *)
Lemma extract_price_last_match_witness :
  exists pre m post num,
    last_match two_prices pre m post num
    /\ extract_price two_prices = Some (binary64 (decimal_value num)).
Proof.
  destruct (proj1 extract_price_last_match two_prices) as (_ & Hex & Hval).
  destruct (Hex two_prices_has_match) as (pre & m & post & num & L).
  exists pre, m, post, num. exact (conj L (Hval pre m post num L)).
Defined.

(** C9.  Every string that the pattern captures is converted by
    [clean_price]: the conversion of [float] does not fail on it, and
    gives the float of its value.  Hence [extract_price] returns nothing
    exactly when no substring of the text matches the pattern. *)
Theorem clean_price_total_on_captures :
  forall text,
    (forall g, In g (findall price_pattern text) ->
       clean_price g = Some (binary64 (decimal_value g)))
    /\ (forall rest cap, match_at price_pattern text = Some (cap, rest) ->
          exists g, cap = Some g
                    /\ clean_price g = Some (binary64 (decimal_value g)))
    /\ (extract_price text = None <-> ~ has_match text).
Proof.
  intros text. split; [|split; [|apply extract_price_none]].
  - intros g H. apply findall_numbers in H. apply clean_price_value, H.
  - intros rest cap M. apply match_at_sound in M.
    destruct M as (num & ws & cur & -> & _ & Pn & _).
    exists num. split; [reflexivity|]. apply clean_price_value, Pn.
Qed.

(** C9 at the example: the second capture of the text is converted. *)
Lemma clean_price_total_witness :
  exists q, clean_price (lit "1.300,00") = Some (Fin q).
Proof.
  exists (1300 # 1)%Q.
  rewrite (proj1 (clean_price_total_on_captures two_prices) (lit "1.300,00")).
  - vm_compute. reflexivity.
  - vm_compute. right. left. reflexivity.
Defined.

(** ** Images of a thread *)

Lemma add_image_one (acc : list pystr) (i : img) :
  add_image acc i
  = acc ++ map absolute (match usable_url i with Some u => [u] | None => [] end).
Proof.
  unfold add_image, usable_url.
  destruct (py_or (src i) (data_url i)) as [[|c u]|]; cbn [map];
    rewrite ?app_nil_r; auto.
  unfold absolute. destruct (startswith (c :: u) (lit "http")); reflexivity.
Qed.

Lemma add_image_spec (tags : list img) (acc : list pystr) :
  fold_left add_image tags acc = acc ++ map absolute (raw_urls tags).
Proof.
  revert acc. induction tags as [|i tags IH]; intros acc.
  - cbn. rewrite app_nil_r. reflexivity.
  - cbn [fold_left]. rewrite IH, add_image_one. unfold raw_urls.
    cbn [flat_map]. rewrite map_app, app_assoc. reflexivity.
Qed.

Lemma raw_urls_length (tags : list img) :
  (length (raw_urls tags) <= length tags)%nat.
Proof.
  induction tags as [|i tags IH]; simpl; auto. rewrite length_app.
  destruct (usable_url i); simpl; lia.
Qed.

Lemma images_of_spec (p : post) :
  images_of p = map absolute (raw_urls (firstn 3 (img_tags p))).
Proof. unfold images_of. rewrite add_image_spec. reflexivity. Qed.

Lemma scrape_cases (outcome : result response) (url : pystr) :
  let d := snd (scrape_thread_details outcome url) in
  (d = {| price := None; images := [] |})
  \/ exists tree p, snd (get_soup outcome url) = Some tree
       /\ first_post tree = Some p
       /\ d = {| price := extract_price (get_text p); images := images_of p |}.
Proof.
  unfold scrape_thread_details.
  destruct (get_soup outcome url) as [out [tree|]]; simpl; auto.
  destruct (first_post tree) as [p|] eqn:E; simpl; auto.
  right. exists tree, p. auto.
Qed.

(** C4.  The images that [scrape_thread_details] returns are at most
    three; they are the usable [src] or [data-url] values of the first
    three image tags, where a value that does not start with "http" has
    the base URL put in front and a value that starts with "http" is
    returned as it is. *)
Theorem images_at_most_three_and_absolute :
  forall (outcome : result response) (thread_url : pystr),
    let d := snd (scrape_thread_details outcome thread_url) in
    (length (images d) <= 3)%nat
    /\ (forall tree p,
          snd (get_soup outcome thread_url) = Some tree ->
          first_post tree = Some p ->
          images d = map absolute (raw_urls (firstn 3 (img_tags p))))
    /\ (forall raw, startswith raw (lit "http") = false ->
          absolute raw = base_url ++ raw)
    /\ (forall raw, startswith raw (lit "http") = true -> absolute raw = raw).
Proof.
  intros outcome url d. split; [|split; [|split]].
  - destruct (scrape_cases outcome url) as [E|(tree & p & _ & _ & E)];
      fold d in E; rewrite E; simpl; [lia|].
    rewrite images_of_spec, length_map.
    etransitivity; [apply raw_urls_length|]. rewrite length_firstn. lia.
  - intros tree p G F. subst d. unfold scrape_thread_details.
    destruct (get_soup outcome url) as [out s]. simpl in G. subst s.
    rewrite F. simpl. apply add_image_spec.
  - intros raw E. unfold absolute. rewrite E. reflexivity.
  - intros raw E. unfold absolute. rewrite E. reflexivity.
Qed.

(** C4 at a post with four image tags. *)
Lemma images_at_most_three_witness :
  (length (images (snd (scrape_thread_details (thread_page four_tags) []))) <= 3)%nat
  /\ images (snd (scrape_thread_details (thread_page four_tags) []))
     = map absolute (raw_urls (firstn 3 (img_tags four_tags))).
Proof.
  destruct (images_at_most_three_and_absolute (thread_page four_tags) [])
    as (L & E & _).
  exact (conj L (E _ four_tags eq_refl eq_refl)).
Defined.

(** C8.  When the fetch of the thread page fails, or the page has no
    first post body, [scrape_thread_details] returns no price and no
    images. *)
Theorem scrape_thread_details_default :
  forall (outcome : result response) (thread_url : pystr),
    let d := snd (scrape_thread_details outcome thread_url) in
    (snd (get_soup outcome thread_url) = None ->
       d = {| price := None; images := [] |})
    /\ (forall tree, snd (get_soup outcome thread_url) = Some tree ->
          first_post tree = None ->
          d = {| price := None; images := [] |}).
Proof.
  intros outcome url d. subst d. unfold scrape_thread_details.
  destruct (get_soup outcome url) as [out s]. simpl. split.
  - intros ->. reflexivity.
  - intros tree -> ->. reflexivity.
Qed.

(** C8 at a request that times out, and at a page without a first post. *)
Lemma scrape_thread_details_default_witness :
  snd (scrape_thread_details (Raise Timeout) []) = {| price := None; images := [] |}
  /\ snd (scrape_thread_details (serve empty_page 0%nat []) [])
     = {| price := None; images := [] |}.
Proof.
  split.
  - exact (proj1 (scrape_thread_details_default (Raise Timeout) []) eq_refl).
  - exact (proj2 (scrape_thread_details_default (serve empty_page 0%nat []) [])
             empty_page eq_refl eq_refl).
Defined.

(** C10.  Only the first three image tags of the post are looked at, in
    the order of the document; among them a tag without [src] and
    [data-url] gives no URL, and no later tag takes its place: a post with
    three usable images behind such a tag yields two URLs. *)
Theorem images_not_backfilled :
  (forall p more,
      (3 <= length (img_tags p))%nat ->
      images_of {| get_text := get_text p; img_tags := img_tags p ++ more |}
      = images_of p)
  /\ (forall p, images_of p = map absolute (raw_urls (firstn 3 (img_tags p))))
  /\ (forall i, src i = None -> data_url i = None -> raw_urls [i] = [])
  /\ (length (raw_urls (img_tags four_tags)) = 3%nat
      /\ images (snd (scrape_thread_details (thread_page four_tags) []))
         = [base_url ++ lit "/a.jpg"; lit "https://x/b.jpg"]).
Proof.
  split; [|split; [|split]].
  - intros p more L. unfold images_of. cbn [img_tags].
    rewrite firstn_app.
    replace (3 - length (img_tags p))%nat with 0%nat by lia.
    rewrite firstn_O, app_nil_r. reflexivity.
  - apply images_of_spec.
  - intros i S D. unfold raw_urls, usable_url. simpl. rewrite S, D. reflexivity.
  - split; reflexivity.
Qed.

(** C10 at the post with four tags: a fifth tag changes nothing. *)
Lemma images_not_backfilled_witness :
  images_of {| get_text := get_text four_tags;
               img_tags := img_tags four_tags
                           ++ [{| src := Some (lit "/d.jpg"); data_url := None |}] |}
  = images_of four_tags.
Proof.
  apply (proj1 images_not_backfilled four_tags). simpl. lia.
Defined.

(** ** The page fetcher *)

(** C7, as stated, fails: a response with a status that is not 2xx and not
    an error class of [raise_for_status] is parsed and returned, without a
    message. *)
Lemma get_soup_returns_tree_for_304 :
  success not_modified = false
  /\ get_soup (Ok not_modified) start_url = ([], Some empty_page).
Proof. split; reflexivity. Qed.

(** C7, amended.  [get_soup] returns to its caller in every case.  It
    returns the parsed tree, and prints nothing, exactly when the request
    came back, its status is outside 400..599 and the parser accepted the
    body; this covers every 2xx response.  In every other case (the
    request raised, the status is 4xx or 5xx, the parser raised) it prints
    one message with the error and returns nothing. *)
Theorem get_soup_never_raises :
  forall (outcome : result response) (url : pystr),
    (forall r tree,
        outcome = Ok r ->
        ((400 <=? status_code r) && (status_code r <? 600))%Z = false ->
        parsed r = Ok tree ->
        get_soup outcome url = ([], Some tree))
    /\ (forall r tree, outcome = Ok r -> success r = true -> parsed r = Ok tree ->
          get_soup outcome url = ([], Some tree))
    /\ (forall e, outcome = Raise e ->
          get_soup outcome url = ([FetchError url e], None))
    /\ (forall r, outcome = Ok r ->
          ((400 <=? status_code r) && (status_code r <? 600))%Z = true ->
          get_soup outcome url
          = ([FetchError url (HTTPError (status_code r))], None))
    /\ (forall r e, outcome = Ok r ->
          ((400 <=? status_code r) && (status_code r <? 600))%Z = false ->
          parsed r = Raise e ->
          get_soup outcome url = ([FetchError url e], None))
    /\ ((exists tree, get_soup outcome url = ([], Some tree))
        \/ (exists e, get_soup outcome url = ([FetchError url e], None))).
Proof.
  intros outcome url. unfold get_soup, raise_for_status, success.
  repeat split.
  - intros r tree -> E P. simpl. rewrite E. simpl. rewrite P. reflexivity.
  - intros r tree -> S P. simpl.
    replace ((400 <=? status_code r) && (status_code r <? 600))%Z with false.
    + simpl. rewrite P. reflexivity.
    + symmetry. apply andb_true_iff in S. destruct S as [S1 S2].
      apply andb_false_iff. left. apply Z.leb_gt. apply Z.ltb_lt in S2. lia.
  - intros e ->. reflexivity.
  - intros r -> E. simpl. rewrite E. reflexivity.
  - intros r e -> E P. simpl. rewrite E. simpl. rewrite P. reflexivity.
  - destruct outcome as [r|e]; simpl; eauto.
    destruct ((400 <=? status_code r) && (status_code r <? 600))%Z; simpl; eauto.
    destruct (parsed r); eauto.
Qed.

(** ** The crawl loop *)

Lemma while_head_data (env : web) (max_results : Z) (st : state) :
  threads_data (while_head env max_results st) = threads_data st.
Proof.
  unfold while_head, finish, request. destruct (below_max max_results st).
  - simpl. destruct (get_soup _ _) as [out [tree|]]; simpl.
    + destruct (thread_items tree); simpl;
        destruct (save_to_html (threads_data st)); reflexivity.
    + destruct (save_to_html (threads_data st)); reflexivity.
  - destruct (save_to_html (threads_data st)); reflexivity.
Qed.

Lemma record_thread_data (env : web) (st : state) (a : anchor) (rest : list item) :
  threads_data (record_thread env st a rest) = threads_data st
  \/ exists r, threads_data (record_thread env st a rest) = threads_data st ++ [r]
               /\ hersteller_modell r = title_text a.
Proof.
  unfold record_thread. destruct (href a) as [h|]; simpl; auto.
  destruct (scrape_thread_details _ _) as [out d]. simpl. right. eauto.
Qed.

Lemma step_data (env : web) (max_results : Z) (st : state) :
  threads_data (step env max_results st) = threads_data st
  \/ (below_max max_results st = true
      /\ exists r, threads_data (step env max_results st) = threads_data st ++ [r]).
Proof.
  unfold step. destruct (pc st) as [|items| |e]; auto.
  - left. apply while_head_data.
  - unfold for_head. destruct items as [|i rest]; auto.
    destruct (below_max max_results st) eqn:B; simpl; auto.
    destruct (title_element i) as [a|]; auto.
    destruct (has_prefix (title_text a)); simpl; auto.
    destruct (record_thread_data env st a rest) as [E|(r & E & _)]; eauto.
Qed.

Lemma step_count (env : web) (max_results : Z) (st : state) :
  (count st <= Z.max 0 max_results)%Z ->
  (count (step env max_results st) <= Z.max 0 max_results)%Z.
Proof.
  unfold count. intros H.
  destruct (step_data env max_results st) as [->|(B & r & ->)]; auto.
  unfold below_max in B. apply Z.ltb_lt in B.
  rewrite length_app. simpl. lia.
Qed.

Lemma steps_count (env : web) (max_results : Z) (n : nat) (st : state) :
  (count st <= Z.max 0 max_results)%Z ->
  (count (steps env max_results n st) <= Z.max 0 max_results)%Z.
Proof.
  revert st. induction n as [|n IH]; intros st H; simpl; auto.
  apply IH, step_count, H.
Qed.

(** Once the count has reached the maximum, a step fetches nothing and
    records nothing, and leads towards the end of [run]. *)
Lemma step_at_maximum (env : web) (max_results : Z) (st : state) :
  below_max max_results st = false ->
  let st' := step env max_results st in
  threads_data st' = threads_data st /\ requests st' = requests st
  /\ match pc st with
     | WhileHead => pc st' = Returned
     | ForHead _ => pc st' = WhileHead
     | Returned | Raised _ => st' = st
     end.
Proof.
  intros B. unfold step. destruct (pc st) as [|items| |e] eqn:P; simpl; auto.
  - unfold while_head. rewrite B. unfold finish.
    destruct (save_to_html (threads_data st)); simpl. auto.
  - unfold for_head. destruct items as [|i rest]; simpl; auto.
    rewrite B. simpl. auto.
Qed.

Lemma steps_at_maximum (env : web) (max_results : Z) (k : nat) (st : state) :
  below_max max_results st = false ->
  let st' := steps env max_results k st in
  threads_data st' = threads_data st /\ requests st' = requests st
  /\ ((2 <= k)%nat -> stopped (pc st')).
Proof.
  assert (Stay : forall k st, stopped (pc st) -> steps env max_results k st = st).
  { clear. induction k as [|k IH]; intros st S; simpl; auto.
    assert (E : step env max_results st = st).
    { unfold step. destruct S as [->|(e & ->)]; reflexivity. }
    rewrite E. auto. }
  assert (Keep : forall st, below_max max_results st = false ->
            below_max max_results (step env max_results st) = false).
  { intros s B. destruct (@step_at_maximum env max_results s B) as (E & _).
    unfold below_max in *. rewrite E. exact B. }
  revert st. induction k as [|k IH]; intros st B; simpl.
  - repeat split; auto. lia.
  - destruct (@step_at_maximum env max_results st B) as (E1 & E2 & P).
    destruct (IH _ (Keep _ B)) as (F1 & F2 & _).
    split; [congruence|]. split; [congruence|]. intros K.
    set (s1 := step env max_results st) in *.
    destruct (pc st) eqn:Pc.
    + rewrite Stay; [left; exact P|left; exact P].
    + destruct k as [|k]; [lia|]. simpl.
      destruct (@step_at_maximum env max_results s1 (Keep _ B)) as (_ & _ & P').
      rewrite P in P'.
      rewrite Stay; [left; exact P'|left; exact P'].
    + rewrite P. rewrite Stay; rewrite Pc; left; reflexivity.
    + rewrite P. rewrite Stay; rewrite Pc; right; eauto.
Qed.

(** C3.  In every state that [run] reaches, the number of records is at
    most the maximum (at most 0 for a negative maximum).  In a state where
    the number has reached the maximum, nothing is fetched and nothing is
    recorded any more, whatever entries of the page are still to come, and
    after two steps [run] is over.  With a maximum of 1 and a page of two
    sale threads, [run] ends with one record and has fetched the page and
    the first thread only. *)
Theorem crawl_stops_at_maximum :
  forall (env : web) (max_results : Z) (file : option document) (n : nat),
    let st := run env max_results file n in
    (count st <= Z.max 0 max_results)%Z
    /\ ((max_results <= count st)%Z ->
        forall k, let st' := steps env max_results k st in
          threads_data st' = threads_data st
          /\ requests st' = requests st
          /\ ((2 <= k)%nat -> stopped (pc st')))
    /\ (let final := run (serve two_sales) 1 None 4 in
        pc final = Returned
        /\ map hersteller_modell (threads_data final) = [lit "[Verkauf] Rolex"]
        /\ requests final = [start_url; base_url ++ lit "/threads/1/"]).
Proof.
  intros env max_results file n st. split; [|split].
  - apply steps_count. unfold count. simpl. lia.
  - intros H k. apply steps_at_maximum.
    unfold below_max. apply Z.ltb_ge. exact H.
  - vm_compute. auto.
Qed.

(** C3 at a page of two sale threads and a maximum of 1: after the first
    record nothing more is fetched, and [run] is over. *)
Lemma crawl_stops_at_maximum_witness :
  (count (run (serve two_sales) 1 None 2) <= Z.max 0 1)%Z
  /\ requests (steps (serve two_sales) 1 5 (run (serve two_sales) 1 None 2))
     = requests (run (serve two_sales) 1 None 2)
  /\ stopped (pc (steps (serve two_sales) 1 5 (run (serve two_sales) 1 None 2))).
Proof.
  destruct (crawl_stops_at_maximum (serve two_sales) 1 None 2) as (C & S & _).
  assert (M : (1 <= count (run (serve two_sales) 1 None 2))%Z)
    by (vm_compute; discriminate).
  destruct (S M 5%nat) as (_ & R & P).
  refine (conj C (conj R (P _))). lia.
Defined.

(** The claim as it was written, with the maximum itself as the bound,
    fails for a negative maximum: with a maximum of -3 the number of
    records, 0, is above it. *)
Lemma records_above_negative_maximum :
  count (run (serve two_sales) (-3) None 1) = 0%Z
  /\ (-3 < count (run (serve two_sales) (-3) None 1))%Z.
Proof. split; vm_compute; reflexivity. Qed.

(** C6.  When the fetch of an overview page fails, [run] returns in that
    step with the records it has; no exception leaves it; the report is
    written if there is a record, and the file is left alone if there is
    none. *)
Theorem overview_fetch_failure_ends_crawl :
  forall (env : web) (max_results : Z) (st : state),
    pc st = WhileHead ->
    below_max max_results st = true ->
    snd (get_soup (env (length (requests st)) (page_url (current_page st)))
                  (page_url (current_page st))) = None ->
    let st' := step env max_results st in
    pc st' = Returned
    /\ threads_data st' = threads_data st
    /\ (threads_data st = [] -> angebote_html st' = angebote_html st)
    /\ (threads_data st <> [] ->
        angebote_html st'
        = Some {| heading_count := length (threads_data st);
                  table := map to_row (threads_data st) |}).
Proof.
  intros env max_results st P B F. unfold step. rewrite P.
  unfold while_head. rewrite B. unfold request. simpl.
  destruct (get_soup _ _) as [out s]. simpl in F. subst s.
  unfold finish, save_to_html. simpl.
  destruct (threads_data st) as [|r l]; simpl; repeat split; congruence.
Qed.

(** C6 at a server that cannot be reached: the first fetch fails, [run]
    returns without a record and leaves the file alone. *)
Lemma overview_fetch_failure_witness :
  pc (step unreachable 100 (initial 100 None)) = Returned
  /\ threads_data (step unreachable 100 (initial 100 None)) = []
  /\ angebote_html (step unreachable 100 (initial 100 None)) = None.
Proof.
  destruct (@overview_fetch_failure_ends_crawl unreachable 100 (initial 100 None)
              eq_refl eq_refl eq_refl) as (P & D & F & _).
  exact (conj P (conj D (F eq_refl))).
Defined.

Lemma startswith_spec (s p : pystr) :
  startswith s p = true <-> exists tail, s = p ++ tail.
Proof.
  revert s. induction p as [|a p IH]; intros s; simpl.
  - split; [intros _; exists s; reflexivity|intros _; destruct s; reflexivity].
  - destruct s as [|b s]; simpl.
    + split; [discriminate|]. intros (tail & E). discriminate.
    + rewrite andb_true_iff, N.eqb_eq, IH. split.
      * intros (-> & tail & ->). eauto.
      * intros (tail & E). inversion E; subst. eauto.
Qed.








(** ** The title filter *)

Lemma has_prefix_spec (title : pystr) :
  has_prefix title = true <->
  (exists tail, title = lit "[Verkauf]" ++ tail)
  \/ (exists tail, title = lit "[Verkauf-Tausch]" ++ tail).
Proof.
  unfold has_prefix, erlaubte_praefixe. cbn [existsb].
  rewrite orb_false_r, orb_true_iff, !startswith_spec. reflexivity.
Qed.

(** X1.  The filter of the crawler, for a title link that carries an [href]:
    the entry is recorded exactly when its title starts with "[Verkauf]"
    or with "[Verkauf-Tausch]", compared character by character;
    "[VERKAUF] Rolex" is skipped and "[Verkauf] Rolex" is kept. *)
Theorem title_prefix_filter :
  forall (env : web) (max_results : Z) (st : state)
         (i : item) (rest : list item) (a : anchor) (h : pystr),
    pc st = ForHead (i :: rest) ->
    below_max max_results st = true ->
    title_element i = Some a ->
    href a = Some h ->
    let st' := step env max_results st in
    (has_prefix (title_text a) = true <->
       exists r, threads_data st' = threads_data st ++ [r]
                 /\ hersteller_modell r = title_text a)
    /\ (has_prefix (title_text a) = false <-> threads_data st' = threads_data st)
    /\ (has_prefix (title_text a) = true <->
          (exists tail, title_text a = lit "[Verkauf]" ++ tail)
          \/ (exists tail, title_text a = lit "[Verkauf-Tausch]" ++ tail))
    /\ has_prefix (lit "[VERKAUF] Rolex") = false
    /\ has_prefix (lit "[Verkauf] Rolex") = true.
Proof.
  intros env max_results st i rest a h P B T H st'.
  assert (Grow : forall (l : list listing) r, l ++ [r] <> l).
  { intros l r E. apply (f_equal (@length listing)) in E.
    rewrite length_app in E. simpl in E. lia. }
  assert (E : if has_prefix (title_text a)
              then exists r, threads_data st' = threads_data st ++ [r]
                             /\ hersteller_modell r = title_text a
              else threads_data st' = threads_data st).
  { subst st'. unfold step. rewrite P. unfold for_head. rewrite B, T. simpl.
    destruct (has_prefix (title_text a)); simpl; auto.
    unfold record_thread. rewrite H. simpl.
    destruct (scrape_thread_details _ _) as [out d]. simpl. eauto. }
  split; [|split; [|split; [apply has_prefix_spec|split; reflexivity]]].
  - destruct (has_prefix (title_text a)).
    + tauto.
    + split; [discriminate|]. intros (r & E' & _). rewrite E in E'.
      symmetry in E'. apply Grow in E'. contradiction.
  - destruct (has_prefix (title_text a)).
    + split; [discriminate|]. destruct E as (r & E & _). rewrite E.
      intros E'. apply Grow in E'. contradiction.
    + tauto.
Qed.

(** The filter at the first entry of a page with two sale threads. *)
Lemma title_prefix_filter_witness :
  exists r,
    threads_data (step (serve two_sales) 100 at_first_entry)
    = threads_data at_first_entry ++ [r]
    /\ hersteller_modell r = lit "[Verkauf] Rolex".
Proof.
  destruct (@title_prefix_filter (serve two_sales) 100 at_first_entry
              (sale "[Verkauf] Rolex" "/threads/1/")
              [sale "[Verkauf-Tausch] Omega" "/threads/2/"]
              {| title_text := lit "[Verkauf] Rolex";
                 href := Some (lit "/threads/1/") |}
              (lit "/threads/1/") eq_refl eq_refl eq_refl eq_refl)
    as ((H & _) & _).
  exact (H eq_refl).
Defined.

(** C2 at an overview page whose sale thread has a title link without
    [href]: the title passes the filter, the lookup of [href] raises
    [KeyError], and [run] is left through the exception, without a record
    and without a report. *)
Theorem missing_href_aborts_crawl :
  let st := run (serve sale_without_href) 100 None 2 in
  has_prefix (lit "[Verkauf] Rolex") = true
  /\ pc st = Raised (KeyError (lit "href"))
  /\ threads_data st = []
  /\ angebote_html st = None.
Proof. vm_compute. auto. Qed.

(** * More about the code *)

(** ** The steps of [run] *)

Lemma step_transition (env : web) (max_results : Z) (st : state) :
  transition env max_results st (step env max_results st).
Proof.
  unfold step. destruct (pc st) as [|items| |e] eqn:P.
  - unfold while_head. destruct (below_max max_results st) eqn:B;
      [|apply t_exit; auto].
    cbn [request]. 
    destruct (get_soup (env (length (requests (print st [ScanPage (current_page st)])))
                            (page_url (current_page st)))
                       (page_url (current_page st))) as [out [tree|]] eqn:G;
      cbn [requests print] in G.
    + destruct (thread_items tree) as [|i l] eqn:T.
      * apply (t_no_threads env max_results st P B G T).
      * rewrite <- T. apply (t_enter env max_results st P B G). congruence.
    + apply (t_fetch_failed env max_results st P B G).
  - unfold for_head. destruct items as [|i rest]; [apply t_page_done; auto|].
    destruct (below_max max_results st) eqn:B; simpl;
      [|eapply t_break; eauto].
    destruct (title_element i) as [a|] eqn:T.
    + destruct (has_prefix (title_text a)) eqn:H; simpl.
      * destruct (href a) as [h|] eqn:R.
        -- eapply t_record; eauto.
        -- unfold record_thread. rewrite R. eapply t_raise; eauto.
      * eapply t_skip; eauto. unfold skipped. rewrite T. exact H.
    + eapply t_skip; eauto. unfold skipped. rewrite T. exact I.
  - replace st with st at 2 by reflexivity. apply t_stay. left. exact P.
  - apply t_stay. right. eauto.
Qed.

Lemma record_thread_recorded (env : web) (st : state) (a : anchor) (h : pystr)
    (rest : list item) :
  href a = Some h -> record_thread env st a rest = recorded env st a h rest.
Proof.
  intros R. unfold record_thread, recorded, listing_of. rewrite R.
  cbn [request print requests threads_data current_page stdout angebote_html].
  destruct (scrape_thread_details _ _) as [out d]. reflexivity.
Qed.

Lemma finish_fields (st : state) :
  threads_data (finish st) = threads_data st
  /\ current_page (finish st) = current_page st
  /\ requests (finish st) = requests st
  /\ pc (finish st) = Returned
  /\ stdout (finish st) = stdout st ++ fst (save_to_html (threads_data st))
  /\ angebote_html (finish st)
     = match snd (save_to_html (threads_data st)) with
       | Some d => Some d
       | None => angebote_html st
       end.
Proof.
  unfold finish. destruct (save_to_html (threads_data st)) as [out file].
  simpl. repeat split; reflexivity.
Qed.

Lemma steps_invariant (P : state -> Prop) (env : web) (max_results : Z) :
  (forall st, P st -> P (step env max_results st)) ->
  forall n st, P st -> P (steps env max_results n st).
Proof.
  intros H. induction n as [|n IH]; intros st Hs; simpl; auto.
Qed.

Lemma run_invariant (P : state -> Prop) (env : web) (max_results : Z)
    (file : option document) :
  P (initial max_results file) ->
  (forall st, P st -> P (step env max_results st)) ->
  forall n, P (run env max_results file n).
Proof. intros H0 H n. unfold run. apply steps_invariant; auto. Qed.

Lemma steps_add (env : web) (max_results : Z) (a b : nat) (st : state) :
  steps env max_results (a + b) st
  = steps env max_results b (steps env max_results a st).
Proof. revert st. induction a as [|a IH]; intros st; simpl; auto. Qed.

(** ** The records *)







(** ** The requests *)

Lemma step_in_balance (env : web) (max_results : Z) (st : state) :
  in_balance st -> in_balance (step env max_results st).
Proof.
  unfold in_balance. intros [Hp H].
  destruct (step_transition env max_results st)
    as [S|P B|out P B G|out tree P B G T|out tree P B G T|P|i rest P B
        |i rest P B K|i rest a P B T Hp' R|i rest a h P B T Hp' R];
    try rewrite (record_thread_recorded env st a rest R);
    repeat match goal with
      | |- context [finish ?s] =>
          destruct (finish_fields s) as (-> & -> & -> & -> & _ & _)
      end;
    simpl; rewrite ?P in H; rewrite ?length_app; simpl; try lia; auto.
Qed.

(** X3.  [run] makes one request for each overview page it visits and one
    for each record, and no other: in every state the number of requests
    is the number of records plus the number of the current page, or one
    less; the page number starts at 1. *)
Theorem requests_in_balance :
  forall (env : web) (max_results : Z) (file : option document) (n : nat),
    let st := run env max_results file n in
    (1 <= current_page st)%Z
    /\ (count st + current_page st - 1
        <= Z.of_nat (length (requests st))
        <= count st + current_page st)%Z.
Proof.
  intros env max_results file n st.
  assert (H : in_balance st).
  { apply (run_invariant in_balance); [|apply step_in_balance].
    unfold in_balance. simpl. lia. }
  destruct H as [Hp H]. split; auto. unfold count.
  destruct (pc st); lia.
Qed.

Lemma page_url_on_forum (p : Z) : on_forum (page_url p).
Proof.
  unfold on_forum, page_url. apply startswith_spec.
  destruct (1 <? p)%Z.
  - exists (lit "/forums/angebote.11/" ++ lit "page-"
            ++ lit (NilZero.string_of_int (Z.to_int p))). reflexivity.
  - exists (lit "/forums/angebote.11/"). reflexivity.
Qed.

Lemma step_on_forum (env : web) (max_results : Z) (st : state) :
  Forall on_forum (requests st) ->
  Forall on_forum (requests (step env max_results st)).
Proof.
  intros H.
  destruct (step_transition env max_results st)
    as [S|P B|out P B G|out tree P B G T|out tree P B G T|P|i rest P B
        |i rest P B K|i rest a P B T Hp' R|i rest a h P B T Hp' R];
    try rewrite (record_thread_recorded env st a rest R);
    rewrite ?(proj1 (proj2 (proj2 (finish_fields _))));
    simpl; auto; apply Forall_app; split; auto; constructor; auto;
    try apply page_url_on_forum.
  unfold on_forum. apply startswith_spec. exists h. reflexivity.
Qed.

(** X4.  Every URL that [run] requests starts with the base URL of the
    forum. *)
Theorem requests_stay_on_forum :
  forall (env : web) (max_results : Z) (file : option document) (n : nat),
    Forall on_forum (requests (run env max_results file n)).
Proof.
  intros env max_results file n.
  apply (run_invariant (fun st => Forall on_forum (requests st))).
  - constructor.
  - apply step_on_forum.
Qed.

(** ** The report *)




(** ** What a run adds *)

Lemma get_soup_out (outcome : result response) (url : pystr) :
  hits (fst (get_soup outcome url)) = [].
Proof.
  unfold get_soup. destruct (r <- outcome ;; _ <- raise_for_status r ;; parsed r);
    reflexivity.
Qed.

Lemma scrape_out (outcome : result response) (url : pystr) :
  fst (scrape_thread_details outcome url) = fst (get_soup outcome url).
Proof.
  unfold scrape_thread_details. destruct (get_soup outcome url) as [out [tree|]];
    simpl; auto. destruct (first_post tree); reflexivity.
Qed.

Lemma step_grows (env : web) (max_results : Z) (st : state) :
  let st' := step env max_results st in
  (exists l, threads_data st' = threads_data st ++ l)
  /\ (exists l, requests st' = requests st ++ l)
  /\ (exists l, stdout st' = stdout st ++ l)
  /\ (current_page st <= current_page st')%Z.
Proof.
  cbv zeta.
  destruct (step_transition env max_results st)
    as [S|P B|out P B G|out tree P B G T|out tree P B G T|P|i rest P B
        |i rest P B K|i rest a P B T Hp' R|i rest a h P B T Hp' R];
    try rewrite (record_thread_recorded env st a rest R);
    repeat match goal with
      | |- context [finish ?s] =>
          destruct (finish_fields s) as (-> & -> & -> & _ & -> & _)
      end;
    simpl; rewrite <- ?app_assoc;
    (split; [eauto using app_nil_r|split; [eauto using app_nil_r
      |split; [eauto using app_nil_r|lia]]]).
Qed.

Lemma steps_grow (env : web) (max_results : Z) (k : nat) (st : state) :
  let st' := steps env max_results k st in
  (exists l, threads_data st' = threads_data st ++ l)
  /\ (exists l, requests st' = requests st ++ l)
  /\ (exists l, stdout st' = stdout st ++ l)
  /\ (current_page st <= current_page st')%Z.
Proof.
  revert st. induction k as [|k IH]; intros st; simpl.
  - repeat split; try (exists []; rewrite app_nil_r; reflexivity). lia.
  - destruct (step_grows env max_results st) as ((a & A) & (b & B) & (c & C) & D).
    destruct (IH (step env max_results st))
      as ((a' & A') & (b' & B') & (c' & C') & D').
    rewrite A', B', C', A, B, C, <- !app_assoc. repeat split; eauto. lia.
Qed.

(** X6.  A run only adds: later in a run the records, the log of the
    requests and the output each start with what they were before, and
    the page number has not gone down.  A record, once made, is not
    changed and not dropped. *)
Theorem run_only_adds :
  forall (env : web) (max_results : Z) (file : option document) (n k : nat),
    let earlier := run env max_results file n in
    let later := run env max_results file (n + k) in
    (exists l, threads_data later = threads_data earlier ++ l)
    /\ (exists l, requests later = requests earlier ++ l)
    /\ (exists l, stdout later = stdout earlier ++ l)
    /\ (current_page earlier <= current_page later)%Z.
Proof.
  intros env max_results file n k. unfold run. rewrite steps_add.
  apply steps_grow.
Qed.

(** ** The hits *)

Lemma hits_app (a b : list diagnostic) : hits (a ++ b) = hits a ++ hits b.
Proof. apply flat_map_app. Qed.

Lemma combine_append (X Y : Type) (a b : list X) (c d : list Y) :
  length a = length c -> combine (a ++ b) (c ++ d) = combine a c ++ combine b d.
Proof.
  revert c. induction a as [|x a IH]; intros [|y c] L; simpl in *;
    try discriminate; auto.
  rewrite IH; auto.
Qed.

Lemma numbered_snoc (data : list listing) (r : listing) :
  numbered (data ++ [r])
  = numbered data ++ [((length data + 1)%nat, hersteller_modell r)].
Proof.
  unfold numbered. rewrite length_app, map_app, seq_app. simpl.
  rewrite combine_append by (rewrite length_seq, length_map; reflexivity).
  simpl. rewrite Nat.add_1_r. reflexivity.
Qed.

Lemma step_hits (env : web) (max_results : Z) (st : state) :
  hits (stdout st) = numbered (threads_data st) ->
  hits (stdout (step env max_results st))
  = numbered (threads_data (step env max_results st)).
Proof.
  intros H.
  assert (Fin : forall s, hits (stdout s) = numbered (threads_data s) ->
            hits (stdout (finish s)) = numbered (threads_data (finish s))).
  { intros s E. destruct (finish_fields s) as (-> & _ & _ & _ & -> & _).
    rewrite hits_app, E.
    replace (hits (fst (save_to_html (threads_data s)))) with (@nil (nat * list N))
      by (destruct (threads_data s); reflexivity).
    apply app_nil_r. }
  destruct (step_transition env max_results st)
    as [S|P B|out P B G|out tree P B G T|out tree P B G T|P|i rest P B
        |i rest P B K|i rest a P B T Hp' R|i rest a h P B T Hp' R];
    try rewrite (record_thread_recorded env st a rest R); auto.
  - apply Fin. simpl. rewrite !hits_app, H.
    pose proof (get_soup_out (env (length (requests st)) (page_url (current_page st)))
                  (page_url (current_page st))) as O.
    rewrite G in O. simpl in O. rewrite O. simpl. rewrite !app_nil_r. reflexivity.
  - apply Fin. simpl. rewrite !hits_app, H.
    pose proof (get_soup_out (env (length (requests st)) (page_url (current_page st)))
                  (page_url (current_page st))) as O.
    rewrite G in O. simpl in O. rewrite O. simpl. rewrite !app_nil_r. reflexivity.
  - simpl. rewrite !hits_app, H.
    pose proof (get_soup_out (env (length (requests st)) (page_url (current_page st)))
                  (page_url (current_page st))) as O.
    rewrite G in O. simpl in O. rewrite O. simpl. rewrite !app_nil_r. reflexivity.
  - cbn [recorded stdout threads_data].
    rewrite !hits_app, H, scrape_out, get_soup_out, app_nil_r, numbered_snoc.
    reflexivity.
Qed.

(** X7.  The progress messages number the hits as the records are made:
    the hits printed so far are (1, t1), (2, t2), ... for the titles t1,
    t2, ... of the records so far, in their order. *)
Theorem hits_number_the_records :
  forall (env : web) (max_results : Z) (file : option document) (n : nat),
    let st := run env max_results file n in
    hits (stdout st) = numbered (threads_data st).
Proof.
  intros env max_results file n.
  apply (run_invariant (fun st => hits (stdout st) = numbered (threads_data st))).
  - reflexivity.
  - apply step_hits.
Qed.

(** ** The end of a run *)

Lemma steps_stopped (env : web) (max_results : Z) (n : nat) (st : state) :
  stopped (pc st) -> steps env max_results n st = st.
Proof.
  intros H. induction n as [|n IH]; simpl; auto.
  replace (step env max_results st) with st; auto.
  unfold step. destruct H as [H|[e H]]; rewrite H; reflexivity.
Qed.

Lemma below_max_empty (max_results : Z) (st : state) :
  threads_data st = [] -> below_max max_results st = (0 <? max_results)%Z.
Proof. intros H. unfold below_max. rewrite H. reflexivity. Qed.

(** X10.  With a maximum of zero or less, [run] returns at once: no page
    is requested, there is no record, the only messages are the start
    line and the line of [save_to_html] for no data, and [angebote.html]
    is left as it was. *)
Theorem nothing_is_fetched_without_a_maximum :
  forall (env : web) (max_results : Z) (file : option document) (n : nat),
    (max_results <= 0)%Z ->
    run env max_results file (S n)
    = {| threads_data := []; current_page := 1; requests := [];
         stdout := [Start max_results; NoData]; angebote_html := file;
         pc := Returned |}.
Proof.
  intros env max_results file n H. unfold run. cbn [steps].
  assert (E : step env max_results (initial max_results file)
              = {| threads_data := []; current_page := 1; requests := [];
                   stdout := [Start max_results; NoData]; angebote_html := file;
                   pc := Returned |}).
  { unfold step. cbn [pc initial]. unfold while_head.
    rewrite below_max_empty by reflexivity.
    destruct (Z.ltb_spec 0 max_results); [lia|]. reflexivity. }
  rewrite E. apply steps_stopped. left. reflexivity.
Qed.

(** X10 with the maximum 0 at a server that would have two sale threads. *)
Lemma nothing_is_fetched_witness :
  (0 <= 0)%Z
  /\ run (serve two_sales) 0 None 4
     = {| threads_data := []; current_page := 1; requests := [];
          stdout := [Start 0; NoData]; angebote_html := None;
          pc := Returned |}.
Proof.
  assert (H : (0 <= 0)%Z) by lia.
  exact (conj H (nothing_is_fetched_without_a_maximum (serve two_sales) None 3 H)).
Defined.

(** The loop over the entries of a page comes to its end: [run] stops in
    it, or the loop head is reached with the next page number. *)
Lemma entries_end (env : web) (max_results : Z) (items : list item) :
  forall st, pc st = ForHead items ->
    exists k,
      stopped (pc (steps env max_results k st))
      \/ (pc (steps env max_results k st) = WhileHead
          /\ current_page (steps env max_results k st) = (current_page st + 1)%Z).
Proof.
  induction items as [|i0 items IH]; intros st P.
  - exists 1%nat. right. simpl. unfold step. rewrite P. simpl. auto.
  - cut (exists k,
      stopped (pc (steps env max_results k (step env max_results st)))
      \/ (pc (steps env max_results k (step env max_results st)) = WhileHead
          /\ current_page (steps env max_results k (step env max_results st))
             = (current_page st + 1)%Z)).
    { intros [k H]. exists (S k). exact H. }
    destruct (step_transition env max_results st)
      as [S|P' B|out P' B G|out tree P' B G T|out tree P' B G T|P'|i rest P' B
          |i rest P' B K|i rest a P' B T Hp' R|i rest a h P' B T Hp' R];
      try congruence.
    + exists 0%nat. left. exact S.
    + exists 0%nat. right. simpl. auto.
    + assert (rest = items) by congruence. subst rest.
      destruct (IH (goto st (ForHead items)) eq_refl) as [k H].
      exists k. exact H.
    + exists 0%nat. left. right. simpl. eauto.
    + assert (rest = items) by congruence. subst rest.
      rewrite (record_thread_recorded env st a items R).
      destruct (IH (recorded env st a h items) eq_refl) as [k H].
      exists k. exact H.
Qed.

Lemma crawl_ends_from (env : web) (max_results : Z) (p : Z) :
  dead_page env p ->
  forall (d : nat) (st : state),
    pc st = WhileHead -> (current_page st <= p)%Z ->
    Z.to_nat (p - current_page st) = d ->
    exists k, stopped (pc (steps env max_results k st)).
Proof.
  intros Dead. induction d as [|d IH]; intros st P Le E;
    (cut (exists k, stopped (pc (steps env max_results k (step env max_results st))));
     [intros [k H]; exists (S k); exact H|]);
    destruct (step_transition env max_results st)
      as [S|P' B|out P' B G|out tree P' B G T|out tree P' B G T|P'|i rest P' B
          |i rest P' B K|i rest a P' B T Hp' R|i rest a h P' B T Hp' R];
    try congruence;
    try (exists 0%nat; left; simpl;
         apply (proj1 (proj2 (proj2 (proj2 (finish_fields _))))));
    try (exists 0%nat; exact S).
  - exfalso. assert (current_page st = p) by lia. subst p.
    specialize (Dead (length (requests st))). rewrite G in Dead. simpl in Dead.
    auto.
  - destruct (Z.eq_dec (current_page st) p) as [Ep|Np].
    { exfalso. subst p.
      specialize (Dead (length (requests st))). rewrite G in Dead. simpl in Dead.
      auto. }
    destruct (@entries_end env max_results (thread_items tree)
                (goto (fetched env st out) (ForHead (thread_items tree))) eq_refl)
      as [k [H|[H C]]].
    + exists k. exact H.
    + simpl in C.
      destruct (IH _ H) as [k' H']; [lia|lia|].
      exists (k + k')%nat. rewrite steps_add. exact H'.
Qed.

(** X11.  When some overview page, from the first on, cannot be had or has
    no entries whenever it is asked for, [run] comes to an end, and the
    state it ends in is final. *)
Theorem crawl_ends_at_a_dead_page :
  forall (env : web) (max_results : Z) (file : option document) (p : Z),
    (1 <= p)%Z -> dead_page env p ->
    exists n,
      stopped (pc (run env max_results file n))
      /\ forall m, (n <= m)%nat ->
           run env max_results file m = run env max_results file n.
Proof.
  intros env max_results file p Le Dead.
  destruct (@crawl_ends_from env max_results p Dead (Z.to_nat (p - 1))
              (initial max_results file) eq_refl Le eq_refl) as [n H].
  exists n. split; [exact H|].
  intros m Hm. replace m with (n + (m - n))%nat by lia.
  unfold run. rewrite steps_add. apply steps_stopped. exact H.
Qed.

Lemma one_page_dead : dead_page one_page 2.
Proof. intros k. vm_compute. exact I. Qed.

(** X11 at a server with one page of sale threads: the second page is
    dead. *)
Lemma crawl_ends_witness :
  (1 <= 2)%Z
  /\ exists n,
       stopped (pc (run one_page 100 None n))
       /\ forall m, (n <= m)%nat -> run one_page 100 None m = run one_page 100 None n.
Proof.
  assert (H : (1 <= 2)%Z) by lia.
  exact (conj H (crawl_ends_at_a_dead_page 100 None H one_page_dead)).
Defined.

(** ** A run without an end *)

Lemma step_barren (env : web) (max_results : Z) (st : state) :
  barren env -> (0 < max_results)%Z ->
  idle st -> idle (step env max_results st).
Proof.
  intros Bar Pos [D I0].
  pose proof (below_max_empty max_results st D) as Bm.
  destruct (Z.ltb_spec 0 max_results) as [_|]; [|lia].
  destruct (Bar (length (requests st)) (page_url (current_page st)))
    as (out' & tree' & G' & T' & Sk).
  unfold idle.
  destruct (step_transition env max_results st)
    as [S|P B|out P B G|out tree P B G T|out tree P B G T|P|i rest P B
        |i rest P B K|i rest a P B T Hp' R|i rest a h P B T Hp' R];
    try congruence; try rewrite P in I0.
  - exfalso. destruct S as [S|[e S]]; rewrite S in I0; exact I0.
  - split; [exact D|]. simpl.
    assert (tree = tree') by congruence. subst tree'. exact Sk.
  - split; [exact D|exact I].
  - split; [exact D|]. simpl. inversion I0; auto.
  - exfalso. inversion I0 as [|? ? Si _]; subst.
    unfold skipped in Si. rewrite T in Si. congruence.
  - exfalso. inversion I0 as [|? ? Si _]; subst.
    unfold skipped in Si. rewrite T in Si. congruence.
Qed.

Lemma idle_running (st : state) : idle st -> running (pc st).
Proof. intros [_ H]. destruct (pc st); simpl; auto. Qed.

Lemma page_advances (env : web) (max_results : Z) (st : state) :
  barren env -> (0 < max_results)%Z -> idle st ->
  exists k, current_page (steps env max_results k st) = (current_page st + 1)%Z.
Proof.
  intros Bar Pos Inv.
  assert (Keep : forall k s, idle s -> ~ stopped (pc (steps env max_results k s))).
  { intros k s Hs St.
    pose proof (@steps_invariant idle env max_results
                  (fun s0 => @step_barren env max_results s0 Bar Pos)
                  k s Hs) as J.
    apply idle_running in J.
    destruct St as [St|[e St]]; rewrite St in J; exact J. }
  assert (For : forall s items, pc s = ForHead items -> idle s ->
            exists k, current_page (steps env max_results k s)
                      = (current_page s + 1)%Z).
  { intros s items P Is.
    destruct (@entries_end env max_results items s P) as [k [H|[_ C]]].
    - exfalso. apply (Keep k s); auto.
    - eauto. }
  pose proof (@step_barren env max_results st Bar Pos Inv) as Next.
  destruct (pc st) as [|items| |e] eqn:P.
  - assert (C : current_page (step env max_results st) = current_page st
                /\ pc (step env max_results st) <> WhileHead).
    { clear Next.
      destruct (step_transition env max_results st)
        as [S|P' B|out P' B G|out tree P' B G T|out tree P' B G T|P'|i rest P' B
            |i rest P' B K|i rest a P' B T Hp' R|i rest a h P' B T Hp' R];
        try congruence;
        try (exfalso;
             match goal with
             | H : stopped _ |- _ => destruct H as [H|[? H]]; congruence
             end);
        rewrite ?(proj1 (proj2 (finish_fields _)));
        rewrite ?(proj1 (proj2 (proj2 (proj2 (finish_fields _)))));
        simpl; split; auto; try congruence; discriminate. }
    destruct C as [C Nw].
    destruct (pc (step env max_results st)) as [|items| |e] eqn:P1.
    + congruence.
    + destruct (For _ _ P1 Next) as [k H].
      exists (S k). simpl. rewrite H, C. reflexivity.
    + apply idle_running in Next. rewrite P1 in Next. destruct Next.
    + apply idle_running in Next. rewrite P1 in Next. destruct Next.
  - eapply For; eauto.
  - apply idle_running in Inv. rewrite P in Inv. destruct Inv.
  - apply idle_running in Inv. rewrite P in Inv. destruct Inv.
Qed.

Lemma pages_without_end (env : web) (max_results : Z) (file : option document) :
  barren env -> (0 < max_results)%Z ->
  forall p : nat, exists n,
    current_page (run env max_results file n) = (1 + Z.of_nat p)%Z.
Proof.
  intros Bar Pos. induction p as [|p [n H]].
  - exists 0%nat. reflexivity.
  - assert (Is : idle (run env max_results file n)).
    { apply run_invariant.
      - split; [reflexivity|exact I].
      - intros st. apply step_barren; auto. }
    destruct (@page_advances env max_results _ Bar Pos Is) as [k K].
    exists (n + k)%nat. unfold run in *. rewrite steps_add, K, H. lia.
Qed.

(** X12.  When the server answers every request with a page that has
    entries, none of them a sale thread with a title link, and the
    maximum is positive, [run] has no end: it is in one of its loops after
    every number of steps, it has no record, and the number of its
    requests passes every bound. *)
Theorem crawl_without_sales_has_no_end :
  forall (env : web) (max_results : Z) (file : option document),
    barren env -> (0 < max_results)%Z ->
    (forall n, running (pc (run env max_results file n))
               /\ threads_data (run env max_results file n) = [])
    /\ (forall m : nat, exists n,
          (m <= length (requests (run env max_results file n)))%nat).
Proof.
  intros env max_results file Bar Pos.
  assert (Is : forall n, idle (run env max_results file n)).
  { intros n. apply run_invariant.
    - split; [reflexivity|exact I].
    - intros st. apply step_barren; auto. }
  split.
  - intros n. split; [apply idle_running, Is|apply (Is n)].
  - intros m. destruct (@pages_without_end env max_results file Bar Pos m) as [n H].
    exists n.
    assert (Bal : in_balance (run env max_results file n)).
    { apply run_invariant.
      - split; simpl; lia.
      - intros st. apply step_in_balance. }
    destruct Bal as [_ Bal]. pose proof (Is n) as [D R].
    rewrite D in Bal. simpl length in Bal.
    destruct (pc (run env max_results file n)); try destruct R; lia.
Qed.

Lemma serve_one_request_barren : barren (serve one_request).
Proof.
  intros k url. exists [], one_request.
  split; [reflexivity|]. split; [discriminate|].
  repeat constructor.
Qed.

(** X12 at a server whose pages have one thread that is no sale. *)
Lemma crawl_without_sales_witness :
  (0 < 100)%Z
  /\ (forall n, running (pc (run (serve one_request) 100 None n))
                /\ threads_data (run (serve one_request) 100 None n) = [])
  /\ (forall m : nat, exists n,
        (m <= length (requests (run (serve one_request) 100 None n)))%nat).
Proof.
  assert (H : (0 < 100)%Z) by lia.
  exact (conj H (crawl_without_sales_has_no_end None serve_one_request_barren H)).
Defined.

(** ** The prices *)

Lemma decimal_value_cents (num : pystr) :
  price_number num ->
  exists cents : N, decimal_value num * inject_Z 100 == inject_Z (Z.of_N cents).
Proof.
  intros Pn.
  destruct (price_number_parts Pn) as (ip & g & Di & Ne & Dg & H).
  assert (Sp : Forall (fun c => negb (c =? comma) = true) ip).
  { eapply Forall_impl; [|exact Di]. simpl. intros c D.
    apply digit_not_separator in D. destruct D as [_ ->]. reflexivity. }
  unfold decimal_value.
  destruct H as [(-> & F & _)|(Lg & F & _)]; rewrite F.
  - rewrite <- (app_nil_r ip). rewrite span_run; [|exact Sp|exact I].
    exists (digits_value ip * 100). cbn [tl length].
    change (digits_value []) with 0.
    change (inject_Z (10 ^ Z.of_nat 0)) with (1 # 1)%Q.
    rewrite N2Z.inj_mul. change (Z.of_N 100) with 100%Z. change (Z.of_N 0) with 0%Z.
    generalize (Z.of_N (digits_value ip)). intros x.
    unfold Qeq. simpl. lia.
  - rewrite span_run; [|exact Sp|reflexivity].
    exists (digits_value ip * 100 + digits_value g). cbn [tl].
    rewrite Lg. change (inject_Z (10 ^ Z.of_nat 2)) with (100 # 1)%Q.
    rewrite N2Z.inj_add, N2Z.inj_mul. change (Z.of_N 100) with 100%Z.
    generalize (Z.of_N (digits_value ip)) (Z.of_N (digits_value g)). intros x y.
    unfold Qeq. simpl. lia.
Qed.

(** X13.  A price that [extract_price] returns is the float of a whole
    number of cents that is not negative: a sign before the number is not
    read, and the number has no or two decimal places.  So the price is
    never negative and never a NaN; it is an infinity only when the number
    is beyond the range of binary64. *)
Theorem price_is_whole_cents :
  forall (text : pystr) (x : pyfloat),
    extract_price text = Some x ->
    exists cents : N,
      x = binary64 (inject_Z (Z.of_N cents) / inject_Z 100)
      /\ (x = Inf false \/ exists q, x = Fin q /\ (0 <= q)%Q).
Proof.
  intros text x. unfold extract_price.
  destruct (findall price_pattern text) as [|g l] eqn:F; [discriminate|].
  assert (Pn : price_number (last (g :: l) [])).
  { apply (@findall_numbers (S (length text)) text).
    fold (findall price_pattern text). rewrite F.
    destruct (@exists_last _ (g :: l)) as (l' & a & E); [discriminate|].
    rewrite E, last_last. apply in_or_app. right. left. reflexivity. }
  rewrite (clean_price_value Pn).
  destruct (decimal_value_cents Pn) as (cents & C).
  intros H. injection H as H. subst x. exists cents.
  assert (E : decimal_value (last (g :: l) [])
              == inject_Z (Z.of_N cents) / inject_Z 100).
  { rewrite <- C. symmetry. apply Qdiv_mult_l. discriminate. }
  change (binary64 (decimal_value (last (g :: l) []))
          = binary64 (inject_Z (Z.of_N cents) / inject_Z 100)
          /\ (binary64 (decimal_value (last (g :: l) [])) = Inf false
              \/ exists q, binary64 (decimal_value (last (g :: l) [])) = Fin q
                           /\ (0 <= q)%Q)).
  rewrite (binary64_compat E). split; [reflexivity|].
  apply binary64_nonneg. unfold Qle. simpl. lia.
Qed.

(** X13 at the text of the example, with a sign before the last number. *)
Lemma price_is_whole_cents_witness :
  exists cents : N,
    Fin 1300 = binary64 (inject_Z (Z.of_N cents) / inject_Z 100)
    /\ (Fin 1300 = Inf false \/ exists q, Fin 1300 = Fin q /\ (0 <= q)%Q).
Proof.
  apply (@price_is_whole_cents
           (lit "Preis: 1.200,50 EUR oder -1.300,00 EUR") (Fin 1300)).
  vm_compute. reflexivity.
Defined.

(** ** The addresses of the overview pages *)

Lemma lit_inj (s t : string) : lit s = lit t -> s = t.
Proof.
  unfold lit. intros H.
  assert (Back : forall l, map ascii_of_N (map N_of_ascii l) = l).
  { induction l as [|a l IH]; simpl; [|rewrite ascii_N_embedding, IH];
      reflexivity. }
  apply (f_equal (map ascii_of_N)) in H. rewrite !Back in H.
  apply (f_equal string_of_list_ascii) in H.
  rewrite !string_of_list_ascii_of_string in H. exact H.
Qed.

Lemma page_number_inj (p q : Z) :
  (0 < p)%Z -> (0 < q)%Z ->
  NilZero.string_of_int (Z.to_int p) = NilZero.string_of_int (Z.to_int q) ->
  p = q.
Proof.
  intros Hp Hq E.
  assert (Nn : forall z, (0 < z)%Z ->
            Z.to_int z <> Decimal.Pos Decimal.Nil
            /\ Z.to_int z <> Decimal.Neg Decimal.Nil).
  { intros z Hz. destruct z as [|z|z]; try lia. simpl. split; [|discriminate].
    intros [= H]. exact (DecimalPos.Unsigned.to_uint_nonnil z H). }
  apply (f_equal NilZero.int_of_string) in E.
  destruct (Nn p Hp) as [A B]. destruct (Nn q Hq) as [C D].
  rewrite !NilZero.isi in E by assumption.
  injection E as E. apply DecimalZ.to_int_inj. exact E.
Qed.

(** X14.  The overview pages from the first on have addresses of their
    own: two page numbers, the smaller at least 1, never give the same
    URL, so that going on to the next page never asks for an address
    again. *)
Theorem page_urls_differ :
  forall p q : Z, (1 <= p)%Z -> (p < q)%Z -> page_url p <> page_url q.
Proof.
  intros p q Hp Hq E. unfold page_url in E.
  destruct (Z.ltb_spec 1 q) as [_|]; [|lia].
  destruct (Z.ltb_spec 1 p) as [H1|H1].
  - apply app_inv_head in E. apply app_inv_head in E. apply lit_inj in E.
    apply page_number_inj in E; lia.
  - rewrite <- (app_nil_r start_url) in E at 1. apply app_inv_head in E.
    discriminate.
Qed.

(** X14 at the first two pages. *)
Lemma page_urls_differ_witness :
  (1 <= 1)%Z /\ (1 < 2)%Z /\ page_url 1 <> page_url 2.
Proof.
  assert (A : (1 <= 1)%Z) by lia. assert (B : (1 < 2)%Z) by lia.
  exact (conj A (conj B (page_urls_differ A B))).
Defined.

(** ** A thread page that cannot be had *)

(** X15.  A sale thread whose page cannot be had is recorded all the same:
    below the maximum, an entry with a sale title and an [href] gives a
    record with the title and the link, without a price and without
    images; the hit is announced before the request, the message of
    [get_soup] follows it, and the loop goes on with the next entry. *)
Theorem failed_thread_page_is_recorded :
  forall (env : web) (max_results : Z) (st : state)
         (i : item) (rest : list item) (a : anchor) (h : pystr)
         (out : list diagnostic),
    pc st = ForHead (i :: rest) ->
    below_max max_results st = true ->
    title_element i = Some a ->
    has_prefix (title_text a) = true ->
    href a = Some h ->
    get_soup (env (length (requests st)) (base_url ++ h)) (base_url ++ h)
    = (out, None) ->
    step env max_results st
    = {| threads_data :=
           threads_data st
           ++ [{| hersteller_modell := title_text a; preis := None;
                  bilder := []; link := link_html (base_url ++ h) |}];
         current_page := current_page st;
         requests := requests st ++ [base_url ++ h];
         stdout := (stdout st
                    ++ [Hit (length (threads_data st) + 1) (title_text a)])
                   ++ out;
         angebote_html := angebote_html st;
         pc := ForHead rest |}.
Proof.
  intros env max_results st i rest a h out P B T Hp R G.
  unfold step. rewrite P. unfold for_head. rewrite B, T, Hp. cbn [negb].
  rewrite (record_thread_recorded env st a rest R).
  unfold recorded, listing_of, scrape_thread_details. rewrite G. reflexivity.
Qed.

(** X15 at the server with one page: the pages of its threads are not
    found. *)
Lemma failed_thread_page_witness :
  step one_page 100 (run one_page 100 None 1)
  = {| threads_data :=
         [{| hersteller_modell := lit "[Verkauf] Rolex"; preis := None;
             bilder := [];
             link := link_html (base_url ++ lit "/threads/1/") |}];
       current_page := 1;
       requests := [start_url; base_url ++ lit "/threads/1/"];
       stdout := [Start 100; ScanPage 1; Hit 1 (lit "[Verkauf] Rolex");
                  FetchError (base_url ++ lit "/threads/1/") (HTTPError 404)];
       angebote_html := None;
       pc := ForHead [sale "[Verkauf-Tausch] Omega" "/threads/2/"] |}.
Proof.
  exact (@failed_thread_page_is_recorded one_page 100 (run one_page 100 None 1)
           (sale "[Verkauf] Rolex" "/threads/1/")
           [sale "[Verkauf-Tausch] Omega" "/threads/2/"]
           {| title_text := lit "[Verkauf] Rolex";
              href := Some (lit "/threads/1/") |}
           (lit "/threads/1/")
           [FetchError (base_url ++ lit "/threads/1/") (HTTPError 404)]
           eq_refl eq_refl eq_refl eq_refl eq_refl eq_refl).
Defined.

(** ** Numbers of more than three digits without a dot *)

Lemma thousands_end (t : pystr) :
  thousands t ->
  t = [] \/ exists t' g1 g2 g3, t = t' ++ [dot; g1; g2; g3].
Proof.
  induction 1 as [|g t Lg Dg T IH]; [left; reflexivity|right].
  destruct g as [|g1 [|g2 [|g3 [|]]]]; try discriminate.
  destruct IH as [->|(t' & h1 & h2 & h3 & ->)].
  - exists [], g1, g2, g3. reflexivity.
  - exists (dot :: [g1; g2; g3] ++ t'), h1, h2, h3. reflexivity.
Qed.

Lemma app_same_tail (T : Type) (a b x y : list T) :
  a ++ x = b ++ y -> length x = length y -> a = b /\ x = y.
Proof.
  intros E L. apply app_same_length; [exact E|].
  apply (f_equal (@length T)) in E. rewrite !length_app in E. lia.
Qed.

Lemma no_four_digits_at_end (p : pystr) (d a b c : char) :
  is_digit d = true -> is_digit a = true ->
  ~ price_number (p ++ [d; a; b; c]).
Proof.
  intros Dd Da (dd & t & cc & E & Len & _ & T & C).
  apply digit_not_separator in Dd, Da.
  destruct C as [->|(g & -> & Lg & _)].
  - rewrite app_nil_r in E.
    destruct (thousands_end T) as [->|(t' & g1 & g2 & g3 & ->)].
    + rewrite app_nil_r in E. apply (f_equal (@length N)) in E.
      rewrite length_app in E. simpl in E. lia.
    + rewrite app_assoc in E. apply app_same_tail in E; [|reflexivity].
      destruct E as [_ E]. injection E as E _. subst d.
      destruct Dd as [Dd _]. discriminate.
  - destruct g as [|g1 [|g2 [|]]]; try discriminate.
    change (p ++ [d; a; b; c]) with (p ++ [d] ++ [a; b; c]) in E.
    rewrite !app_assoc in E. apply app_same_tail in E; [|reflexivity].
    destruct E as [_ E]. injection E as E _. subst a.
    destruct Da as [_ Da]. discriminate.
Qed.

Lemma to_decimal_bound (c : char) :
  match to_decimal c with Some d => d | None => 0 end < 10.
Proof.
  destruct (to_decimal c) as [d|] eqn:E; [|lia].
  apply decimal_in_range, Exists_exists in E. destruct E as (z & _ & H & ->).
  lia.
Qed.

Lemma three_digits_value (a b c : char) :
  is_digit a = true -> is_digit b = true -> is_digit c = true ->
  decimal_value [a; b; c] == inject_Z (Z.of_N (digits_value [a; b; c]))
  /\ (0 <= Z.of_N (digits_value [a; b; c]) < 2 ^ 53)%Z.
Proof.
  intros Da Db Dc. split.
  - apply digit_not_separator in Da, Db, Dc.
    destruct Da as [A1 A2], Db as [B1 B2], Dc as [C1 C2].
    unfold decimal_value. cbn [filter]. rewrite A1, B1, C1. cbn [negb span].
    rewrite A2, B2, C2. cbn [negb tl length].
    change (digits_value []) with 0.
    generalize (Z.of_N (digits_value [a; b; c])). intros v.
    unfold Qeq. simpl. lia.
  - unfold digits_value. cbn [fold_left].
    pose proof (to_decimal_bound a). pose proof (to_decimal_bound b).
    pose proof (to_decimal_bound c).
    change (2 ^ 53)%Z with 9007199254740992%Z. lia.
Qed.

Lemma three_digits_last (x ws cur : pystr) (d a b c : char) :
  is_digit d = true -> is_digit a = true -> is_digit b = true ->
  is_digit c = true -> white_space ws -> currency_marker cur ->
  last_match (x ++ d :: a :: b :: c :: ws ++ cur)
             (x ++ [d]) ([a; b; c] ++ ws ++ cur) [] [a; b; c].
Proof.
  intros Dd Da Db Dc Ws Cur.
  assert (Pn : price_number [a; b; c]).
  { exists [a; b; c], [], []. split; [reflexivity|].
    split; [simpl; lia|]. split; [repeat constructor; assumption|].
    split; [constructor|left; reflexivity]. }
  assert (Tx : x ++ d :: a :: b :: c :: ws ++ cur
               = (x ++ [d]) ++ ([a; b; c] ++ ws ++ cur) ++ []).
  { rewrite app_nil_r, <- app_assoc. reflexivity. }
  split.
  - split; [exact Tx|]. exists ws, cur. auto.
  - intros a' m' b' num' [E (ws' & cur' & -> & Pn' & Ws' & Cur')].
    split; [simpl; lia|]. intros Lb.
    destruct b' as [|? ?]; [clear Lb|discriminate].
    destruct (Nat.le_gt_cases (length (num' ++ ws' ++ cur'))
                              (length ([a; b; c] ++ ws ++ cur))) as [L|L];
      [exact L|exfalso].
    rewrite Tx in E.
    assert (La : (length a' < length (x ++ [d]))%nat).
    { pose proof (f_equal (@length N) E) as El.
      repeat rewrite length_app in El. repeat rewrite length_app in L.
      repeat rewrite length_app. simpl in El, L |- *. lia. }
    apply app_eq_app in E. destruct E as (l & [[E1 E2]|[E1 E2]]);
      [|exfalso; rewrite E1, length_app in La; lia].
    destruct (@exists_last _ l) as (p & e & ->).
      { intros ->. rewrite app_nil_r in E1. rewrite E1 in La. lia. }
      rewrite app_assoc in E1. apply app_inj_tail in E1. destruct E1 as [_ <-].
      rewrite !app_nil_r, <- !app_assoc in E2.
      assert (O : num' ++ ws' ++ cur' ++ []
                  = (p ++ [d]) ++ [a; b; c] ++ ws ++ cur ++ []).
      { rewrite !app_nil_r, <- !app_assoc. exact E2. }
      apply overlap in O; auto.
      * destruct O as (O & _). rewrite <- app_assoc in O. simpl in O.
        rewrite O in Pn'. revert Pn'. apply no_four_digits_at_end; assumption.
      * apply (f_equal (@length N)) in E2. rewrite !length_app in E2.
        rewrite !length_app. simpl in E2. simpl. lia.
Qed.

(** X16.  Of a number of more than three digits that is written without
    a dot, [extract_price] reads the last three digits only: when a digit
    stands before three digits, white space and a currency marker at the
    end of the text, the price is the value of the three digits.  The
    text "1200 EUR-sign" gives 200. *)
Theorem long_number_is_cut_to_three_digits :
  forall (x ws cur : pystr) (d a b c : char),
    is_digit d = true -> is_digit a = true -> is_digit b = true ->
    is_digit c = true -> white_space ws -> currency_marker cur ->
    exists q,
      extract_price (x ++ d :: a :: b :: c :: ws ++ cur) = Some (Fin q)
      /\ q == decimal_value [a; b; c].
Proof.
  intros x ws cur d a b c Dd Da Db Dc Ws Cur.
  pose proof (@three_digits_last x ws cur d a b c Dd Da Db Dc Ws Cur) as L.
  rewrite (extract_price_at_last L).
  rewrite (clean_price_value (last_match_number L)).
  destruct (@three_digits_value a b c Da Db Dc) as (E & B).
  destruct (@binary64_whole (Z.of_N (digits_value [a; b; c]))) as (q & Q & V);
    [lia|].
  exists q. rewrite (binary64_compat E), Q. split; [reflexivity|].
  rewrite V, E. reflexivity.
Qed.

(** X16 at the text "1200 EUR-sign". *)
Lemma long_number_witness :
  exists q,
    extract_price (lit "1200 " ++ [euro_sign]) = Some (Fin q)
    /\ q == decimal_value (lit "200").
Proof.
  apply (@long_number_is_cut_to_three_digits [] (lit " ") [euro_sign]
           49 50 48 48); try reflexivity.
  - repeat constructor.
  - left. reflexivity.
Defined.
